(** * Segment meshing of blk-game: [blk.env.client.SegmentRenderer]

    A shallow embedding of [src/blk/env/client/segmentrenderer.js] and the
    properties of its mesher ([build], [addFaces_]) and of the renderer's
    life cycle ([invalidate], [discard], [render], ...).

    Numbers are integers ([Z]); the 32-bit operators of JavaScript and the
    16-bit stores into the [Uint16Array] scratch array are written out.
    Calls into collaborators that are declared in other files of the
    repository (block set, atlas, block builder, view, GL context) are
    recorded as a trace of events, in program order. *)

From Stdlib Require Import ZArith List Lia Bool Permutation Sorted.
Import ListNotations.
Open Scope Z_scope.
Set Implicit Arguments.

(** ** JavaScript number operations used by the file *)

Module JS.

(** ToInt32: the operand conversion of [>>] and [&]. *)
Definition toInt32 (v : Z) : Z := (v + 2 ^ 31) mod 2 ^ 32 - 2 ^ 31.

(** Conversion applied by a store into a [Uint16Array]. *)
Definition toUint16 (v : Z) : Z := v mod 2 ^ 16.

(** [a >> k] (sign-propagating), for a shift count [0 <= k < 32]. *)
Definition shr (a k : Z) : Z := Z.shiftr (toInt32 a) k.

(** [a & b]. *)
Definition band (a b : Z) : Z := Z.land (toInt32 a) (toInt32 b).

(** Truthiness of a number. *)
Definition truthy (v : Z) : bool := negb (v =? 0).

(** [a[i]] on a typed array.  An index outside the array reads
    [undefined]; every use in this file feeds the value to [>>] or [&],
    where ToInt32 turns [undefined] into [0], so the read yields [0]. *)
Definition read (a : list Z) (i : Z) : Z :=
  if i <? 0 then 0 else nth (Z.to_nat i) a 0.

(** The values taken by [v] in [for (v = lo; v < hi; v++)]. *)
Fixpoint count_from (lo : Z) (n : nat) : list Z :=
  match n with
  | O => []
  | S k => lo :: count_from (lo + 1) k
  end.

Definition for_lt (lo hi : Z) : list Z := count_from lo (Z.to_nat (hi - lo)).

(** The values taken by [v] in [for (v = lo; v <= hi; v++)]. *)
Definition for_le (lo hi : Z) : list Z := for_lt lo (hi + 1).

End JS.

Infix ">>" := JS.shr (at level 32, left associativity) : Z_scope.
Infix "&" := JS.band (at level 39, left associativity) : Z_scope.

(** ** Data model *)

(** [blk.env.Chunk]: world position and the flat array of packed cells. *)
Record Chunk : Type := {
  chunk_x : Z;
  chunk_y : Z;
  chunk_z : Z;
  blockData : list Z
}.

(** Constants declared by [blk.env.Chunk], [blk.env.MaterialFlags] and
    [blk.env.UpdatePriority]; their values are parameters here. *)
Record Consts : Type := {
  SIZE_XZ : Z;
  SIZE_Y : Z;
  STRIDE_Z : Z;
  STRIDE_Y : Z;
  MERGE : Z;
  LOAD : Z
}.

(** [blk.env.Material] and [blk.env.Block], as far as the renderer uses
    them. *)
Record Material : Type := { flags : Z }.

Record Block : Type := {
  material : Material;
  getFaceSlot : Z -> Z -> Z -> Z -> Z -> Z -> Z
}.

(** A GPU buffer: its handle and the number of bytes of storage it holds. *)
Record Buffer : Type := { handle : Z; byteSize : Z }.

(** [blk.graphics.LineBuffer] (debug wireframe). *)
Record LineBuffer : Type := { line_handle : Z }.

(** The object returned by [blockBuilder_.finish]. *)
Record FinishResult : Type := {
  buffer : option Buffer;
  elementCount : Z;
  bytesUsed : Z
}.

(** [blk.env.client.SegmentRenderer.SIZE] *)
Definition SIZE : Z := 16.

(** [blk.env.client.SegmentRenderer.SHIFT_Y] *)
Definition SHIFT_Y : Z := 4.

Section Renderer.

(** Texture coordinates of an atlas slot (a [Vec4] of floats); opaque. *)
Variable TexCoords : Type.

(** Calls made on collaborators, in program order. *)
Inductive event : Type :=
| GetBlockWithId (id : Z)
| GetFaceSlot (blockId bx by_ bz n meta variant : Z)
| GetSlotCoords (slot : Z)
| AddFace (n bx by_local bz : Z) (texCoords : TexCoords)
| Finish (existing : option Buffer)
| GlDeleteBuffer (b : option Buffer)
| Dispose (lb : option LineBuffer)
| NewLineBuffer (lb : LineBuffer)
| Draw (viewport : Z) (worldMatrix : list Z) (b : option Buffer) (count : Z)
| DrawDebug (lb : LineBuffer) (viewport : Z) (worldMatrix : list Z)
| InvalidateSegment (x y z priority : Z)
| BaseDiscard
| BaseRestore
| BaseDisposeInternal.

(** One quad handed to the block builder: face, segment-local position,
    and the texture coordinates as they are at the time of the call (the
    source passes the shared scratch vector [tmpVec4_]). *)
Record Face : Type := {
  face_n : Z;
  face_x : Z;
  face_y : Z;
  face_z : Z;
  face_tex : TexCoords
}.

(** The collaborators of a renderer, all declared in other files: the
    neighbouring chunks' accessor [Chunk.prototype.getBlock], the block set
    (every id it is asked for has a descriptor), the atlas, the view, the
    block builder's [finish] and the line buffer a [new LineBuffer]
    yields. *)
Record World : Type := {
  getBlock : Chunk -> Z -> Z -> Z -> Z;
  getBlockWithId : Z -> Block;
  getSlotCoords : Z -> TexCoords;
  getChunk : Z -> Z -> Z -> option Chunk;
  finish : list Face -> option Buffer -> FinishResult;
  newLineBuffer : LineBuffer
}.

(** The fields of a [SegmentRenderer] instance.  The field [by] of the
    source is [by0] here ([by] is a keyword), and a local [by] is [by_]. *)
Record SegmentRenderer : Type := {
  id : Z;
  chunk : Chunk;
  by0 : Z;
  worldMatrix : list Z;
  centerCoordinates : list Z;
  boundingBox : list Z;
  boundingSphere : list Z;
  dirty : bool;
  faceBuffer_ : option Buffer;
  faceBufferElementCount_ : Z;
  estimatedSize : Z;
  sortKey : Z;
  lastFrameInViewport : Z;
  queuedForBuild : bool;
  queuePriority : Z;
  debugVisuals_ : bool;
  debugLineBuffer : option LineBuffer
}.

Variable K : Consts.
Variable W : World.

(** The constructor; [nextId] is the value of the static counter and
    [bbox] the fresh bounding box. *)
Definition create (nextId : Z) (bbox : list Z) (c : Chunk) (by_ : Z)
  : SegmentRenderer :=
  {| id := nextId;
     chunk := c;
     by0 := by_;
     worldMatrix := [1; 0; 0; 0;
                     0; 1; 0; 0;
                     0; 0; 1; 0;
                     chunk_x c; chunk_y c + by_; chunk_z c; 1];
     centerCoordinates := [chunk_x c + SIZE / 2;
                           chunk_y c + by_ + SIZE / 2;
                           chunk_z c + SIZE / 2];
     boundingBox := bbox;
     boundingSphere := [chunk_x c + SIZE / 2;
                        chunk_y c + by_ + SIZE / 2;
                        chunk_z c + SIZE / 2;
                        SIZE];
     dirty := true;
     faceBuffer_ := None;
     faceBufferElementCount_ := 0;
     estimatedSize := 0;
     sortKey := 0;
     lastFrameInViewport := 0;
     queuedForBuild := false;
     queuePriority := LOAD K;
     debugVisuals_ := false;
     debugLineBuffer := None |}.

(** *** The mesher *)

(** The per-face block of [build] (lines 329-347): the descriptor lookup
    and the loop over the six directions. *)
Definition buildFaces (this : SegmentRenderer) (bx by_ bz data : Z)
    (neighbors : list Z) : list event :=
  let block := getBlockWithId W (data >> 8) in
  GetBlockWithId (data >> 8) ::
  flat_map (fun n =>
    let nb := nth (Z.to_nat n) neighbors 0 in
    let emit :=
      let slot := getFaceSlot block bx by_ bz n ((data >> 16) & 255)
                    (data & 65535) in
      [GetFaceSlot (data >> 8) bx by_ bz n ((data >> 16) & 255)
         (data & 65535);
       GetSlotCoords slot;
       AddFace n bx (by_ - by0 this) bz (getSlotCoords W slot)] in
    if nb =? 0 then emit
    else if negb (nb =? data >> 8) then
      GetBlockWithId nb ::
      (if JS.truthy (flags (material (getBlockWithId W nb)) & MERGE K)
       then emit else [])
    else [])
  (JS.for_lt 0 6).

(** The neighbour ids the interior pass stores into the scratch array
    [tmpFaces_] (lines 321-328).  The array is a [Uint16Array] shared by
    all calls; all six entries are written before any is read, so its
    previous content does not matter. *)
Definition buildNeighbors (this : SegmentRenderer) (bo by_ data : Z)
  : list Z :=
  let blockData := blockData (chunk this) in
  [ JS.toUint16 (JS.read blockData (bo + STRIDE_Z K) >> 8);
    JS.toUint16 (JS.read blockData (bo - STRIDE_Z K) >> 8);
    JS.toUint16 (if by_ >=? SIZE_Y K - 1 then 0
                 else JS.read blockData (bo + STRIDE_Y K) >> 8);
    JS.toUint16 ((if by_ <=? 0 then data
                  else JS.read blockData (bo - STRIDE_Y K)) >> 8);
    JS.toUint16 (JS.read blockData (bo + 1) >> 8);
    JS.toUint16 (JS.read blockData (bo - 1) >> 8) ].

(** The body of the innermost loop of the interior pass (lines 316-347). *)
Definition buildCell (this : SegmentRenderer) (bx by_ bz : Z) : list event :=
  let bo := bx + bz * STRIDE_Z K + by_ * STRIDE_Y K in
  let data := JS.read (blockData (chunk this)) bo in
  if data >> 8 =? 0 then []
  else buildFaces this bx by_ bz data (buildNeighbors this bo by_ data).

(** The interior pass (lines 311-350). *)
Definition buildInterior (this : SegmentRenderer) : list event :=
  let bymin := by0 this in
  let bymax := by0 this + SIZE - 1 in
  flat_map (fun by_ =>
    flat_map (fun bz =>
      flat_map (fun bx => buildCell this bx by_ bz)
        (JS.for_lt 1 (SIZE - 1)))
      (JS.for_lt 1 (SIZE - 1)))
    (JS.for_le bymin bymax).

(** [neighborChunks[i]] of the array of four filled in by [build]. *)
Definition neighborChunk (neighborChunks : list (option Chunk)) (i : nat)
  : option Chunk := nth i neighborChunks None.

(** The neighbour ids [addFaces_] stores into the scratch array
    (lines 435-462). *)
Definition addFacesNeighbors (this : SegmentRenderer)
    (neighborChunks : list (option Chunk)) (bx by_ bz bo data : Z)
  : list Z :=
  let blockData := blockData (chunk this) in
  let cx := chunk_x (chunk this) in
  let cz := chunk_z (chunk this) in
  [ JS.toUint16
      (if bz =? SIZE - 1 then
         match neighborChunk neighborChunks 3 with
         | Some c => getBlock W c (cx + bx) by_ (cz + bz + 1) >> 8
         | None => 0
         end
       else JS.read blockData (bo + STRIDE_Z K) >> 8);
    JS.toUint16
      (if bz =? 0 then
         match neighborChunk neighborChunks 2 with
         | Some c => getBlock W c (cx + bx) by_ (cz + bz - 1) >> 8
         | None => 0
         end
       else JS.read blockData (bo - STRIDE_Z K) >> 8);
    JS.toUint16 (if by_ >=? SIZE_Y K - 1 then 0
                 else JS.read blockData (bo + STRIDE_Y K) >> 8);
    JS.toUint16 ((if by_ <=? 0 then data
                  else JS.read blockData (bo - STRIDE_Y K)) >> 8);
    JS.toUint16
      (if bx =? SIZE - 1 then
         match neighborChunk neighborChunks 1 with
         | Some c => getBlock W c (cx + bx + 1) by_ (cz + bz) >> 8
         | None => 0
         end
       else JS.read blockData (bo + 1) >> 8);
    JS.toUint16
      (if bx =? 0 then
         match neighborChunk neighborChunks 0 with
         | Some c => getBlock W c (cx + bx - 1) by_ (cz + bz) >> 8
         | None => 0
         end
       else JS.read blockData (bo - 1) >> 8) ].

(** The per-face block of [addFaces_] (lines 464-482). *)
Definition addFacesFaces (this : SegmentRenderer) (bx by_ bz data : Z)
    (neighbors : list Z) : list event :=
  let block := getBlockWithId W (data >> 8) in
  GetBlockWithId (data >> 8) ::
  flat_map (fun n =>
    let nb := nth (Z.to_nat n) neighbors 0 in
    let emit :=
      let slot := getFaceSlot block bx by_ bz n ((data >> 16) & 255)
                    (data & 65535) in
      [GetFaceSlot (data >> 8) bx by_ bz n ((data >> 16) & 255)
         (data & 65535);
       GetSlotCoords slot;
       AddFace n bx (by_ - by0 this) bz (getSlotCoords W slot)] in
    if nb =? 0 then emit
    else if negb (nb =? data >> 8) then
      GetBlockWithId nb ::
      (if JS.truthy (flags (material (getBlockWithId W nb)) & MERGE K)
       then emit else [])
    else [])
  (JS.for_lt 0 6).

(** The body of the loop of [addFaces_] (lines 429-482). *)
Definition addFacesCell (this : SegmentRenderer)
    (neighborChunks : list (option Chunk)) (bx by_ bz : Z) : list event :=
  let bo := bx + bz * STRIDE_Z K + by_ * STRIDE_Y K in
  let data := JS.read (blockData (chunk this)) bo in
  if data >> 8 =? 0 then []
  else addFacesFaces this bx by_ bz data
         (addFacesNeighbors this neighborChunks bx by_ bz bo data).

(** [addFaces_] (lines 417-484). *)
Definition addFaces_ (this : SegmentRenderer) (bx bymin bymax bz : Z)
    (neighborChunks : list (option Chunk)) : list event :=
  flat_map (fun by_ => addFacesCell this neighborChunks bx by_ bz)
    (JS.for_le bymin bymax).

(** The four neighbour chunks fetched from the view (lines 355-363). *)
Definition fetchNeighborChunks (this : SegmentRenderer)
  : list (option Chunk) :=
  let c := chunk this in
  [ getChunk W (chunk_x c - SIZE_XZ K) (chunk_y c) (chunk_z c);
    getChunk W (chunk_x c + SIZE_XZ K) (chunk_y c) (chunk_z c);
    getChunk W (chunk_x c) (chunk_y c) (chunk_z c - SIZE_XZ K);
    getChunk W (chunk_x c) (chunk_y c) (chunk_z c + SIZE_XZ K) ].

(** The boundary pass (lines 368-388). *)
Definition buildBoundary (this : SegmentRenderer) : list event :=
  let bymin := by0 this in
  let bymax := by0 this + SIZE - 1 in
  let neighborChunks := fetchNeighborChunks this in
  flat_map (fun bz => addFaces_ this 0 bymin bymax bz neighborChunks)
    (JS.for_lt 0 (SIZE - 1))
  ++ flat_map (fun bx => addFaces_ this bx bymin bymax (SIZE - 1)
                           neighborChunks)
       (JS.for_lt 0 (SIZE - 1))
  ++ flat_map (fun bz => addFaces_ this (SIZE - 1) bymin bymax bz
                           neighborChunks)
       (JS.for_lt 1 SIZE)
  ++ flat_map (fun bx => addFaces_ this bx bymin bymax 0 neighborChunks)
       (JS.for_lt 1 SIZE).

(** The calls of the two passes, in order. *)
Definition buildEvents (this : SegmentRenderer) : list event :=
  buildInterior this ++ buildBoundary this.

(** The faces accumulated by the block builder: the [addFace] calls. *)
Fixpoint facesOf (evs : list event) : list Face :=
  match evs with
  | [] => []
  | AddFace n bx byl bz tc :: rest =>
      {| face_n := n; face_x := bx; face_y := byl; face_z := bz;
         face_tex := tc |} :: facesOf rest
  | _ :: rest => facesOf rest
  end.

(** [build] (lines 296-405): the new state, the returned size delta and the
    calls made.  The block builder is taken to be empty when [build]
    starts, so [finish] packs the faces added by this call.  The tracing
    scopes and the debug-only [displayName] label are left out. *)
Definition build (this : SegmentRenderer)
  : SegmentRenderer * Z * list event :=
  let evs := buildEvents this in
  let results := finish W (facesOf evs) (faceBuffer_ this) in
  let oldSize := estimatedSize this in
  ({| id := id this;
      chunk := chunk this;
      by0 := by0 this;
      worldMatrix := worldMatrix this;
      centerCoordinates := centerCoordinates this;
      boundingBox := boundingBox this;
      boundingSphere := boundingSphere this;
      dirty := false;
      faceBuffer_ := buffer results;
      faceBufferElementCount_ := elementCount results;
      estimatedSize := bytesUsed results;
      sortKey := sortKey this;
      lastFrameInViewport := lastFrameInViewport this;
      queuedForBuild := queuedForBuild this;
      queuePriority := queuePriority this;
      debugVisuals_ := debugVisuals_ this;
      debugLineBuffer := debugLineBuffer this |},
   bytesUsed results - oldSize,
   evs ++ [Finish (faceBuffer_ this)]).

(** *** Life cycle *)

(** [invalidate] (lines 281-283). *)
Definition invalidate (this : SegmentRenderer) : SegmentRenderer :=
  {| id := id this;
     chunk := chunk this;
     by0 := by0 this;
     worldMatrix := worldMatrix this;
     centerCoordinates := centerCoordinates this;
     boundingBox := boundingBox this;
     boundingSphere := boundingSphere this;
     dirty := true;
     faceBuffer_ := faceBuffer_ this;
     faceBufferElementCount_ := faceBufferElementCount_ this;
     estimatedSize := estimatedSize this;
     sortKey := sortKey this;
     lastFrameInViewport := lastFrameInViewport this;
     queuedForBuild := queuedForBuild this;
     queuePriority := queuePriority this;
     debugVisuals_ := debugVisuals_ this;
     debugLineBuffer := debugLineBuffer this |}.

(** Assignment to [debugVisuals_] and [debugLineBuffer]. *)
Definition setDebugFields (this : SegmentRenderer) (v : bool)
    (lb : option LineBuffer) : SegmentRenderer :=
  {| id := id this;
     chunk := chunk this;
     by0 := by0 this;
     worldMatrix := worldMatrix this;
     centerCoordinates := centerCoordinates this;
     boundingBox := boundingBox this;
     boundingSphere := boundingSphere this;
     dirty := dirty this;
     faceBuffer_ := faceBuffer_ this;
     faceBufferElementCount_ := faceBufferElementCount_ this;
     estimatedSize := estimatedSize this;
     sortKey := sortKey this;
     lastFrameInViewport := lastFrameInViewport this;
     queuedForBuild := queuedForBuild this;
     queuePriority := queuePriority this;
     debugVisuals_ := v;
     debugLineBuffer := lb |}.

(** [discard] (lines 242-257). *)
Definition discard (this : SegmentRenderer) : SegmentRenderer * list event :=
  let cleared :=
    {| id := id this;
       chunk := chunk this;
       by0 := by0 this;
       worldMatrix := worldMatrix this;
       centerCoordinates := centerCoordinates this;
       boundingBox := boundingBox this;
       boundingSphere := boundingSphere this;
       dirty := dirty this;
       faceBuffer_ := None;
       faceBufferElementCount_ := 0;
       estimatedSize := 0;
       sortKey := sortKey this;
       lastFrameInViewport := lastFrameInViewport this;
       queuedForBuild := queuedForBuild this;
       queuePriority := queuePriority this;
       debugVisuals_ := debugVisuals_ this;
       debugLineBuffer := debugLineBuffer this |} in
  match debugLineBuffer this with
  | Some lb =>
      (setDebugFields cleared (debugVisuals_ this) None,
       [GlDeleteBuffer (faceBuffer_ this); Dispose (Some lb); BaseDiscard])
  | None =>
      (cleared, [GlDeleteBuffer (faceBuffer_ this); BaseDiscard])
  end.

(** [setDebugVisuals] (lines 491-506); [addDebugVisuals_] only fills the
    new line buffer. *)
Definition setDebugVisuals (this : SegmentRenderer) (value : bool)
  : SegmentRenderer * list event :=
  if Bool.eqb (debugVisuals_ this) value then (this, [])
  else if value then
    (setDebugFields this value (Some (newLineBuffer W)),
     [NewLineBuffer (newLineBuffer W)])
  else
    (setDebugFields this value None, [Dispose (debugLineBuffer this)]).

(** [disposeInternal] (lines 199-203). *)
Definition disposeInternal (this : SegmentRenderer)
  : SegmentRenderer * list event :=
  let '(s, e) := setDebugVisuals this false in
  (s, e ++ [BaseDisposeInternal]).

(** [restore] (lines 263-275).  The request to the view renderer is
    recorded; what the view renderer does with it is its own code. *)
Definition restore (this : SegmentRenderer) : SegmentRenderer * list event :=
  let '(s2, e2) :=
    if debugVisuals_ this then
      let '(s1, e1) := setDebugVisuals this false in
      let '(s2, e2) := setDebugVisuals s1 true in
      (s2, e1 ++ e2)
    else (this, []) in
  (s2,
   BaseRestore :: e2 ++
   [InvalidateSegment (chunk_x (chunk s2)) (chunk_y (chunk s2) + by0 s2)
      (chunk_z (chunk s2)) (LOAD K)]).

(** [hasData] (lines 529-531). *)
Definition hasData (this : SegmentRenderer) : bool :=
  queuedForBuild this || (estimatedSize this >? 0).

(** [render] (lines 539-545). *)
Definition render (this : SegmentRenderer) (frame viewport : Z)
  : SegmentRenderer * list event :=
  if JS.truthy (faceBufferElementCount_ this) then
    (this, [Draw viewport (worldMatrix this) (faceBuffer_ this)
              (faceBufferElementCount_ this)])
  else (this, []).

(** [renderDebug] (lines 553-558). *)
Definition renderDebug (this : SegmentRenderer) (frame viewport : Z)
  : SegmentRenderer * list event :=
  match debugLineBuffer this with
  | Some lb => (this, [DrawDebug lb viewport (worldMatrix this)])
  | None => (this, [])
  end.

(** The methods of the renderer, as calls. *)
Inductive call : Type :=
| CallInvalidate
| CallBuild
| CallDiscard
| CallRestore
| CallSetDebugVisuals (value : bool)
| CallDisposeInternal
| CallHasData
| CallRender (frame viewport : Z)
| CallRenderDebug (frame viewport : Z).

(** The state after a call. *)
Definition step (this : SegmentRenderer) (c : call) : SegmentRenderer :=
  match c with
  | CallInvalidate => invalidate this
  | CallBuild => fst (fst (build this))
  | CallDiscard => fst (discard this)
  | CallRestore => fst (restore this)
  | CallSetDebugVisuals v => fst (setDebugVisuals this v)
  | CallDisposeInternal => fst (disposeInternal this)
  | CallHasData => this
  | CallRender f v => fst (render this f v)
  | CallRenderDebug f v => fst (renderDebug this f v)
  end.

End Renderer.

(** ** Reference definitions

    The notions the properties below are stated with: the cell of the
    renderer's chunk at a position, the neighbour of a cell as the voxel
    grid accessor resolves it, the face rule, and the single-path mesher
    the two passes are compared with. *)

Section Reference.

Variable TexCoords : Type.
Variable K : Consts.
Variable W : World TexCoords.

(** The packed cell of the renderer's chunk at chunk-local [(bx, by, bz)]. *)
Definition cellAt (this : SegmentRenderer) (bx by_ bz : Z) : Z :=
  JS.read (blockData (chunk this)) (bx + bz * STRIDE_Z K + by_ * STRIDE_Y K).

(** Fields of a packed cell. *)
Definition blockId (data : Z) : Z := data >> 8.
Definition metadata (data : Z) : Z := (data >> 16) & 255.
Definition variant (data : Z) : Z := data & 65535.

(** The id of a cell is representable in the [Uint16Array] scratch array
    that holds neighbour ids. *)
Definition idFits (data : Z) : Prop := 0 <= blockId data < 2 ^ 16.

(** A cell of a lateral neighbour chunk; an absent chunk reads as air. *)
Definition lateralCell (c : option Chunk) (x y z : Z) : Z :=
  match c with
  | Some c => getBlock W c x y z
  | None => 0
  end.

(** The packed cell next to [(bx, by, bz)] in direction [n]
    ([+Z, -Z, +Y, -Y, +X, -X]), stated on coordinates as the voxel grid
    accessor of the specification resolves it: the local cell while the
    position stays in the chunk's footprint, the lateral neighbour chunk's
    cell across an edge (air when that chunk is not loaded), air above the
    chunk top and the cell itself below the bottom. *)
Definition neighborCell (this : SegmentRenderer) (bx by_ bz n : Z) : Z :=
  let c := chunk this in
  match n with
  | 0 =>
      if bz + 1 <? SIZE then cellAt this bx by_ (bz + 1)
      else lateralCell
             (getChunk W (chunk_x c) (chunk_y c) (chunk_z c + SIZE_XZ K))
             (chunk_x c + bx) by_ (chunk_z c + bz + 1)
  | 1 =>
      if 0 <=? bz - 1 then cellAt this bx by_ (bz - 1)
      else lateralCell
             (getChunk W (chunk_x c) (chunk_y c) (chunk_z c - SIZE_XZ K))
             (chunk_x c + bx) by_ (chunk_z c + bz - 1)
  | 2 =>
      if by_ + 1 <? SIZE_Y K then cellAt this bx (by_ + 1) bz else 0
  | 3 =>
      if 0 <=? by_ - 1 then cellAt this bx (by_ - 1) bz
      else cellAt this bx by_ bz
  | 4 =>
      if bx + 1 <? SIZE then cellAt this (bx + 1) by_ bz
      else lateralCell
             (getChunk W (chunk_x c + SIZE_XZ K) (chunk_y c) (chunk_z c))
             (chunk_x c + bx + 1) by_ (chunk_z c + bz)
  | _ =>
      if 0 <=? bx - 1 then cellAt this (bx - 1) by_ bz
      else lateralCell
             (getChunk W (chunk_x c - SIZE_XZ K) (chunk_y c) (chunk_z c))
             (chunk_x c + bx - 1) by_ (chunk_z c + bz)
  end.

(** The material of block [nid] carries the MERGE flag. *)
Definition merges (nid : Z) : Prop :=
  flags (material (getBlockWithId W nid)) & MERGE K <> 0.

(** The face rule: the neighbour is empty, or it is a different block
    whose material carries the MERGE flag. *)
Definition faceRule (id nid : Z) : Prop :=
  nid = 0 \/ (nid <> id /\ merges nid).

(** The condition of the [if] that guards the emission of face [n]. *)
Definition visible (neighbors : list Z) (data n : Z) : bool :=
  let nb := nth (Z.to_nat n) neighbors 0 in
  (nb =? 0)
  || (negb (nb =? data >> 8)
      && JS.truthy (flags (material (getBlockWithId W nb)) & MERGE K)).

(** The texture coordinates of face [n] of the cell [data]. *)
Definition faceTex (bx by_ bz n data : Z) : TexCoords :=
  getSlotCoords W
    (getFaceSlot (getBlockWithId W (blockId data)) bx by_ bz n
       (metadata data) (variant data)).

(** A quad is emitted for the cell at [(bx, by, bz)] in direction [n]. *)
Definition emitsFace (evs : list (event TexCoords)) (this : SegmentRenderer)
    (bx by_ bz n : Z) : Prop :=
  exists tc, In (AddFace n bx (by_ - by0 this) bz tc) evs.

(** The build done on the slow path alone, in the scan order of [build]:
    the interior scan with the loop body of [addFaces_] at every cell,
    then the boundary pass. *)
Definition slowPathEvents (this : SegmentRenderer)
  : list (event TexCoords) :=
  flat_map (fun by_ =>
    flat_map (fun bz =>
      flat_map (fun bx =>
        addFacesCell K W this (fetchNeighborChunks K W this) bx by_ bz)
        (JS.for_lt 1 (SIZE - 1)))
      (JS.for_lt 1 (SIZE - 1)))
    (JS.for_le (by0 this) (by0 this + SIZE - 1))
  ++ buildBoundary K W this.

(** The single-path mesher: [addFaces_] run on every column of the
    segment's footprint. *)
Definition singlePathEvents (this : SegmentRenderer)
  : list (event TexCoords) :=
  flat_map (fun bz =>
    flat_map (fun bx =>
      addFaces_ K W this bx (by0 this) (by0 this + SIZE - 1) bz
        (fetchNeighborChunks K W this))
      (JS.for_lt 0 SIZE))
    (JS.for_lt 0 SIZE).

(** The outer ring of the footprint, as the four loops of the boundary
    pass split it. *)
Definition onRing (bx bz : Z) : Prop :=
  (bx = 0 /\ 0 <= bz < SIZE - 1)
  \/ (bz = SIZE - 1 /\ 0 <= bx < SIZE - 1)
  \/ (bx = SIZE - 1 /\ 1 <= bz < SIZE)
  \/ (bz = 0 /\ 1 <= bx < SIZE).

(** Direction [n] leaves the chunk's footprint at [(bx, bz)]. *)
Definition acrossEdge (bx bz n : Z) : Prop :=
  (n = 0 /\ bz = SIZE - 1) \/ (n = 1 /\ bz = 0)
  \/ (n = 4 /\ bx = SIZE - 1) \/ (n = 5 /\ bx = 0).

(** The lateral neighbour chunk in direction [n], as the view has it. *)
Definition lateralChunk (this : SegmentRenderer) (n : Z) : option Chunk :=
  let c := chunk this in
  match n with
  | 0 => getChunk W (chunk_x c) (chunk_y c) (chunk_z c + SIZE_XZ K)
  | 1 => getChunk W (chunk_x c) (chunk_y c) (chunk_z c - SIZE_XZ K)
  | 4 => getChunk W (chunk_x c + SIZE_XZ K) (chunk_y c) (chunk_z c)
  | _ => getChunk W (chunk_x c - SIZE_XZ K) (chunk_y c) (chunk_z c)
  end.

(** The cell the lateral neighbour chunk [c] holds next to [(bx, by, bz)]
    in direction [n], addressed in world coordinates. *)
Definition cellAcross (this : SegmentRenderer) (c : Chunk) (bx by_ bz n : Z)
  : Z :=
  let cx := chunk_x (chunk this) in
  let cz := chunk_z (chunk this) in
  match n with
  | 0 => getBlock W c (cx + bx) by_ (cz + bz + 1)
  | 1 => getBlock W c (cx + bx) by_ (cz + bz - 1)
  | 4 => getBlock W c (cx + bx + 1) by_ (cz + bz)
  | _ => getBlock W c (cx + bx - 1) by_ (cz + bz)
  end.

(** *** Size accounting *)

(** The byte size of the buffer a renderer holds; 0 when it holds none. *)
Definition bufferBytes (b : option Buffer) : Z :=
  match b with
  | Some b => byteSize b
  | None => 0
  end.

(** [estimatedSize] reflects the buffer currently held. *)
Definition sizeInvariant (this : SegmentRenderer) : Prop :=
  estimatedSize this = bufferBytes (faceBuffer_ this).

(** Modelled from the spec: [blk.graphics.BlockBuilder.prototype.finish] is
    not part of the source at hand; its contract is that the byte size it
    reports is the size of the buffer it returns (none: 0). *)
Definition finishReportsSize : Prop :=
  forall faces existing,
    bytesUsed (finish W faces existing)
    = bufferBytes (buffer (finish W faces existing)).

(** Lexicographic order on keys. *)
Fixpoint lexLt (a b : list Z) : Prop :=
  match a, b with
  | x :: a', y :: b' => x < y \/ (x = y /\ lexLt a' b')
  | _, _ => False
  end.

(** The order in which the interior pass scans: Y, then Z, then X, then
    the face direction. *)
Definition interiorKey (f : Face TexCoords) : list Z :=
  [face_y f; face_z f; face_x f; face_n f].

(** The position of a column of the outer ring in the scan of the boundary
    pass: [x = 0] with [z] from 0 to 14, then [z = 15] with [x] from 0 to
    14, then [x = 15] with [z] from 1 to 15, then [z = 0] with [x] from 1
    to 15. *)
Definition ringIndex (x z : Z) : Z :=
  if (x =? 0) && (z <? SIZE - 1) then z
  else if (z =? SIZE - 1) && (x <? SIZE - 1) then 15 + x
  else if (x =? SIZE - 1) && (0 <? z) then 29 + z
  else 44 + x.

(** The order in which the boundary pass emits: column of the ring, then
    Y, then the face direction. *)
Definition boundaryKey (f : Face TexCoords) : list Z :=
  [ringIndex (face_x f) (face_z f); face_y f; face_n f].

(** The order a single key of Y first, then ring position, then direction
    would give the boundary pass. *)
Definition yFirstKey (f : Face TexCoords) : list Z :=
  [face_y f; ringIndex (face_x f) (face_z f); face_n f].

(** A list of faces in which Y never decreases. *)
Definition yAscending (fs : list (Face TexCoords)) : Prop :=
  StronglySorted (fun f g => face_y f <= face_y g) fs.

End Reference.

(** A voxel write by the world: the chunk's cells become [data]. *)
Definition withBlockData (this : SegmentRenderer) (data : list Z)
  : SegmentRenderer :=
  {| id := id this;
     chunk := {| chunk_x := chunk_x (chunk this);
                 chunk_y := chunk_y (chunk this);
                 chunk_z := chunk_z (chunk this);
                 blockData := data |};
     by0 := by0 this;
     worldMatrix := worldMatrix this;
     centerCoordinates := centerCoordinates this;
     boundingBox := boundingBox this;
     boundingSphere := boundingSphere this;
     dirty := dirty this;
     faceBuffer_ := faceBuffer_ this;
     faceBufferElementCount_ := faceBufferElementCount_ this;
     estimatedSize := estimatedSize this;
     sortKey := sortKey this;
     lastFrameInViewport := lastFrameInViewport this;
     queuedForBuild := queuedForBuild this;
     queuePriority := queuePriority this;
     debugVisuals_ := debugVisuals_ this;
     debugLineBuffer := debugLineBuffer this |}.

(** Consecutive calls of [build]; before each the world may have changed
    the collaborators and the chunk's cells.  The result is the final state
    and the deltas returned, in order. *)
Fixpoint buildAll (T : Type) (K : Consts)
    (rounds : list (World T * list Z)) (this : SegmentRenderer)
  : SegmentRenderer * list Z :=
  match rounds with
  | [] => (this, [])
  | (W, data) :: rest =>
      let '(s, delta, _) := build K W (withBlockData this data) in
      let '(s', deltas) := buildAll K rest s in
      (s', delta :: deltas)
  end.

(** The sum of a list of deltas. *)
Definition total (deltas : list Z) : Z := fold_right Z.add 0 deltas.

(** ** A concrete world

    Chunks of 16 x 32 x 16 cells (two segments each), a block set in which
    block 2 alone is mergeable, an identity atlas, and a block builder that
    packs 96 bytes per face. *)

Module Example.

Definition consts : Consts :=
  {| SIZE_XZ := 16; SIZE_Y := 32; STRIDE_Z := 16; STRIDE_Y := 256;
     MERGE := 1; LOAD := 0 |}.

Definition block (id : Z) : Block :=
  {| material := {| flags := if id =? 2 then 1 else 0 |};
     getFaceSlot := fun x y z n meta var => 6 * id + n |}.

Definition cellOf (c : Chunk) (x y z : Z) : Z :=
  JS.read (blockData c) (x mod 16 + (z mod 16) * 16 + y * 256).

Definition pack (faces : list (Face Z)) (existing : option Buffer)
  : FinishResult :=
  let n := Z.of_nat (length faces) in
  {| buffer := if n =? 0 then None
               else Some {| handle := 1; byteSize := 96 * n |};
     elementCount := 6 * n;
     bytesUsed := 96 * n |}.

Definition world (view : Z -> Z -> Z -> option Chunk) : World Z :=
  {| getBlock := cellOf;
     getBlockWithId := block;
     getSlotCoords := fun slot => slot;
     getChunk := view;
     finish := pack;
     newLineBuffer := {| line_handle := 2 |} |}.

(** A chunk's full array of [total] cells: blocks of type 1 with no
    attributes (cell 256) at the indices [solid], air elsewhere. *)
Definition cells (total : Z) (solid : list Z) : list Z :=
  map (fun i => if existsb (Z.eqb i) solid then 256 else 0)
    (JS.for_lt 0 total).

(** No neighbour chunk is loaded. *)
Definition alone : Z -> Z -> Z -> option Chunk := fun _ _ _ => None.

(** One block of type 1 at local [(5, 5, 5)]. *)
Definition single : Chunk :=
  {| chunk_x := 0; chunk_y := 0; chunk_z := 0;
     blockData := cells 8192 [5 + 5 * 16 + 5 * 256] |}.

(** Blocks of type 1 at local [(0, 1, 0)] and [(0, 0, 1)], both on the
    footprint's outer ring. *)
Definition pair : Chunk :=
  {| chunk_x := 0; chunk_y := 0; chunk_z := 0;
     blockData := cells 8192 [0 + 0 * 16 + 1 * 256; 0 + 1 * 16 + 0 * 256] |}.

(** The chunk at [x = -16] is loaded and holds a block of type 1 at its
    local [(15, 1, 0)], next to [(0, 1, 0)] of the chunk at the origin. *)
Definition west : Chunk :=
  {| chunk_x := -16; chunk_y := 0; chunk_z := 0;
     blockData := cells 8192 [15 + 0 * 16 + 1 * 256] |}.

Definition beside : Z -> Z -> Z -> option Chunk :=
  fun x y z => if (x =? -16) && (y =? 0) && (z =? 0) then Some west else None.

(** One block of type 1 in the chunk's top layer, at local [(5, 31, 5)]. *)
Definition top : Chunk :=
  {| chunk_x := 0; chunk_y := 0; chunk_z := 0;
     blockData := cells 8192 [5 + 5 * 16 + 31 * 256] |}.

(** The renderers of the lower and of the upper segment of a chunk. *)
Definition renderer (c : Chunk) : SegmentRenderer := create consts 0 [] c 0.

Definition upper (c : Chunk) : SegmentRenderer := create consts 1 [] c 16.

End Example.

(** ** Runs of calls

    Sequences of method calls on a renderer with their trace, and the
    notions used to state what a run does with its buffers. *)

Section Runs.

Variable TexCoords : Type.
Variable K : Consts.
Variable W : World TexCoords.

(** The calls a method makes on collaborators. *)
Definition callEvents (this : SegmentRenderer) (c : call)
  : list (event TexCoords) :=
  match c with
  | CallInvalidate => []
  | CallBuild => snd (build K W this)
  | CallDiscard => snd (discard TexCoords this)
  | CallRestore => snd (restore K W this)
  | CallSetDebugVisuals v => snd (setDebugVisuals W this v)
  | CallDisposeInternal => snd (disposeInternal W this)
  | CallHasData => []
  | CallRender f v => snd (render TexCoords this f v)
  | CallRenderDebug f v => snd (renderDebug TexCoords this f v)
  end.

(** A sequence of calls: the final state and the whole trace. *)
Fixpoint run (this : SegmentRenderer) (cs : list call)
  : SegmentRenderer * list (event TexCoords) :=
  match cs with
  | [] => (this, [])
  | c :: rest =>
      let '(s, evs) := run (step K W this c) rest in
      (s, callEvents this c ++ evs)
  end.

(** Line buffers created minus line buffers disposed of in a trace;
    [goog.dispose(null)] disposes of nothing. *)
Definition lineBufferDelta (e : event TexCoords) : Z :=
  match e with
  | NewLineBuffer _ _ => 1
  | Dispose _ (Some _) => -1
  | _ => 0
  end.

Definition liveLineBuffers (evs : list (event TexCoords)) : Z :=
  fold_right (fun e acc => lineBufferDelta e + acc) 0 evs.

(** The number of line buffers a renderer holds. *)
Definition heldLineBuffers (this : SegmentRenderer) : Z :=
  match debugLineBuffer this with
  | Some _ => 1
  | None => 0
  end.

(** A line buffer is held only while debug visuals are on. *)
Definition debugConsistent (this : SegmentRenderer) : Prop :=
  debugLineBuffer this <> None -> debugVisuals_ this = true.

(** The calls of the mesher: block set, descriptor, atlas, block
    builder's [addFace]. *)
Definition mesherCall (e : event TexCoords) : Prop :=
  match e with
  | GetBlockWithId _ _ | GetFaceSlot _ _ _ _ _ _ _ _ | GetSlotCoords _ _
  | AddFace _ _ _ _ _ => True
  | _ => False
  end.

(** A call that touches a face buffer: a draw, a [finish], or a
    [deleteBuffer] of an actual buffer. *)
Definition touchesFaceBuffer (e : event TexCoords) : Prop :=
  match e with
  | Draw _ _ _ _ _ | Finish _ _ | GlDeleteBuffer _ (Some _) => True
  | _ => False
  end.

(** What identifies a quad: direction and segment-local position. *)
Definition faceKey (f : Face TexCoords) : Z * Z * Z * Z :=
  (face_n f, face_x f, face_y f, face_z f).


End Runs.

(** ** A filled world

    Every cell of every chunk holds a block of type 1, and every neighbour
    chunk is loaded. *)

Module Filled.

Definition full : Chunk :=
  {| chunk_x := 0; chunk_y := 0; chunk_z := 0;
     blockData := repeat 256 (Z.to_nat 8192) |}.

Definition everywhere : Z -> Z -> Z -> option Chunk := fun _ _ _ => Some full.

(** A chunk of air only. *)
Definition void : Chunk :=
  {| chunk_x := 0; chunk_y := 0; chunk_z := 0;
     blockData := repeat 0 (Z.to_nat 8192) |}.

Definition world : World Z := Example.world everywhere.

End Filled.

(** ** Loops and traces *)

Lemma In_count_from (x lo : Z) (n : nat) :
  In x (JS.count_from lo n) <-> lo <= x < lo + Z.of_nat n.
Proof.
  revert lo; induction n as [|n IH]; intros lo; simpl.
  - lia.
  - rewrite IH. lia.
Qed.

Lemma In_for_lt (x lo hi : Z) : In x (JS.for_lt lo hi) <-> lo <= x < hi.
Proof.
  unfold JS.for_lt. rewrite In_count_from. lia.
Qed.

Lemma In_for_le (x lo hi : Z) : In x (JS.for_le lo hi) <-> lo <= x <= hi.
Proof.
  unfold JS.for_le. rewrite In_for_lt. lia.
Qed.

Section MesherFacts.

Variable TexCoords : Type.
Variable K : Consts.
Variable W : World TexCoords.

(** The two copies of the per-face block are the same code. *)
Lemma buildFaces_addFacesFaces this bx by_ bz data neighbors :
  buildFaces K W this bx by_ bz data neighbors
  = addFacesFaces K W this bx by_ bz data neighbors.
Proof. reflexivity. Qed.

(** Away from the footprint's outer ring [addFaces_] reads the same
    neighbours as the interior pass. *)
Lemma addFacesNeighbors_interior this nc bx by_ bz bo data :
  bx <> 0 -> bx <> SIZE - 1 -> bz <> 0 -> bz <> SIZE - 1 ->
  addFacesNeighbors K W this nc bx by_ bz bo data
  = buildNeighbors K this bo by_ data.
Proof.
  intros Hx0 Hx1 Hz0 Hz1. unfold addFacesNeighbors, buildNeighbors.
  apply Z.eqb_neq in Hx0, Hx1, Hz0, Hz1.
  rewrite Hx0, Hx1, Hz0, Hz1. reflexivity.
Qed.

Lemma buildCell_addFacesCell this nc bx by_ bz :
  bx <> 0 -> bx <> SIZE - 1 -> bz <> 0 -> bz <> SIZE - 1 ->
  buildCell K W this bx by_ bz = addFacesCell K W this nc bx by_ bz.
Proof.
  intros. unfold buildCell, addFacesCell.
  rewrite addFacesNeighbors_interior by assumption. reflexivity.
Qed.

(** The [addFace] calls of the per-face block. *)
Lemma In_AddFace_addFacesFaces this bx by_ bz data neighbors n x y z tc :
  In (AddFace n x y z tc) (addFacesFaces K W this bx by_ bz data neighbors)
  <-> 0 <= n < 6 /\ x = bx /\ y = by_ - by0 this /\ z = bz
      /\ tc = faceTex W bx by_ bz n data
      /\ visible K W neighbors data n = true.
Proof.
  unfold addFacesFaces, visible, faceTex, blockId, metadata, variant.
  split.
  - intros [Hd | Hin]; [discriminate|].
    apply in_flat_map in Hin. destruct Hin as [m [Hm Hin]].
    apply In_for_lt in Hm. cbv beta zeta in Hin.
    destruct (nth (Z.to_nat m) neighbors 0 =? 0) eqn:E0.
    + simpl in Hin.
      destruct Hin as [H|[H|[H|[]]]]; try discriminate.
      inversion H; subst. simpl. rewrite E0. repeat split; lia.
    + destruct (nth (Z.to_nat m) neighbors 0 =? data >> 8) eqn:E1;
        simpl in Hin; [contradiction|].
      destruct Hin as [H|Hin]; [discriminate|].
      destruct (JS.truthy _) eqn:E2; simpl in Hin; [|contradiction].
      destruct Hin as [H|[H|[H|[]]]]; try discriminate.
      inversion H; subst. cbv zeta. rewrite E0, E1, E2.
      repeat split; lia.
  - intros (Hn & -> & -> & -> & -> & Hv). right.
    apply in_flat_map.
    exists n. split; [apply In_for_lt; lia|].
    cbv beta zeta in Hv |- *.
    destruct (nth (Z.to_nat n) neighbors 0 =? 0) eqn:E0.
    + simpl. auto.
    + simpl in Hv.
      destruct (nth (Z.to_nat n) neighbors 0 =? data >> 8) eqn:E1;
        simpl in Hv; [discriminate|].
      simpl. right. rewrite Hv. simpl. auto.
Qed.

(** Which cells each pass visits. *)
Lemma In_buildInterior (e : event TexCoords) this :
  In e (buildInterior K W this)
  <-> exists bx by_ bz,
        (1 <= bx < SIZE - 1 /\ 1 <= bz < SIZE - 1
         /\ by0 this <= by_ <= by0 this + SIZE - 1)
        /\ In e (buildCell K W this bx by_ bz).
Proof.
  unfold buildInterior. rewrite in_flat_map. split.
  - intros (by_ & Hy & H). apply in_flat_map in H. destruct H as (bz & Hz & H).
    apply in_flat_map in H. destruct H as (bx & Hx & H).
    apply In_for_le in Hy. apply In_for_lt in Hz, Hx.
    exists bx, by_, bz. auto.
  - intros (bx & by_ & bz & (Hx & Hz & Hy) & H).
    exists by_. split; [apply In_for_le; exact Hy|].
    apply in_flat_map. exists bz. split; [apply In_for_lt; exact Hz|].
    apply in_flat_map. exists bx. split; [apply In_for_lt; exact Hx|].
    exact H.
Qed.

Lemma In_addFaces_ (e : event TexCoords) this bx bymin bymax bz nc :
  In e (addFaces_ K W this bx bymin bymax bz nc)
  <-> exists by_, bymin <= by_ <= bymax
                  /\ In e (addFacesCell K W this nc bx by_ bz).
Proof.
  unfold addFaces_. rewrite in_flat_map.
  split; intros (by_ & Hy & H); exists by_; split; auto;
    apply In_for_le; exact Hy.
Qed.

Lemma In_buildBoundary (e : event TexCoords) this :
  In e (buildBoundary K W this)
  <-> exists bx by_ bz,
        (onRing bx bz /\ by0 this <= by_ <= by0 this + SIZE - 1)
        /\ In e (addFacesCell K W this (fetchNeighborChunks K W this)
                   bx by_ bz).
Proof.
  unfold buildBoundary, onRing. rewrite !in_app_iff, !in_flat_map. split.
  - intros [H|[H|[H|H]]]; destruct H as (v & Hv & H);
      apply In_for_lt in Hv; apply In_addFaces_ in H;
      destruct H as (by_ & Hy & H).
    + exists 0, by_, v. auto.
    + exists v, by_, (SIZE - 1). auto 6.
    + exists (SIZE - 1), by_, v. auto 7.
    + exists v, by_, 0. auto 8.
  - intros (bx & by_ & bz & (Hr & Hy) & H).
    assert (Ha : forall x z,
      In e (addFacesCell K W this (fetchNeighborChunks K W this) x by_ z) ->
      In e (addFaces_ K W this x (by0 this) (by0 this + SIZE - 1) z
              (fetchNeighborChunks K W this))).
    { intros x z Hin. apply In_addFaces_. exists by_. auto. }
    destruct Hr as [[-> Hr]|[[-> Hr]|[[-> Hr]|[-> Hr]]]].
    + left. exists bz. split; [apply In_for_lt; exact Hr|auto].
    + right; left. exists bx. split; [apply In_for_lt; exact Hr|auto].
    + right; right; left.
      exists bz. split; [apply In_for_lt; exact Hr|auto].
    + right; right; right.
      exists bx. split; [apply In_for_lt; exact Hr|auto].
Qed.

(** Every column of the footprint is visited by one of the two passes,
    and each visit runs the code of [addFaces_]'s loop body. *)
Lemma In_buildEvents (e : event TexCoords) this :
  In e (buildEvents K W this)
  <-> exists bx by_ bz,
        (0 <= bx < SIZE /\ 0 <= bz < SIZE
         /\ by0 this <= by_ <= by0 this + SIZE - 1)
        /\ In e (addFacesCell K W this (fetchNeighborChunks K W this)
                   bx by_ bz).
Proof.
  unfold buildEvents. rewrite in_app_iff, In_buildInterior, In_buildBoundary.
  unfold onRing, SIZE. split.
  - intros [H|H]; destruct H as (bx & by_ & bz & Hr & H);
      exists bx, by_, bz.
    + rewrite <- (@buildCell_addFacesCell this) by (unfold SIZE; lia).
      split; [lia|exact H].
    + split; [lia|exact H].
  - intros (bx & by_ & bz & Hr & H).
    destruct (Z.eq_dec bx 0) as [Hx0|Hx0];
      [|destruct (Z.eq_dec bx 15) as [Hx1|Hx1]];
      (destruct (Z.eq_dec bz 0) as [Hz0|Hz0];
       [|destruct (Z.eq_dec bz 15) as [Hz1|Hz1]]);
      try (right; exists bx, by_, bz; split; [lia|exact H]).
    left. exists bx, by_, bz. split; [lia|].
    rewrite (@buildCell_addFacesCell this (fetchNeighborChunks K W this))
      by (unfold SIZE; lia).
    exact H.
Qed.

Lemma In_singlePathEvents (e : event TexCoords) this :
  In e (singlePathEvents K W this)
  <-> exists bx by_ bz,
        (0 <= bx < SIZE /\ 0 <= bz < SIZE
         /\ by0 this <= by_ <= by0 this + SIZE - 1)
        /\ In e (addFacesCell K W this (fetchNeighborChunks K W this)
                   bx by_ bz).
Proof.
  unfold singlePathEvents. rewrite in_flat_map. split.
  - intros (bz & Hz & H). apply in_flat_map in H. destruct H as (bx & Hx & H).
    apply In_for_lt in Hz, Hx. apply In_addFaces_ in H.
    destruct H as (by_ & Hy & H). exists bx, by_, bz. auto.
  - intros (bx & by_ & bz & (Hx & Hz & Hy) & H).
    exists bz. split; [apply In_for_lt; exact Hz|].
    apply in_flat_map. exists bx. split; [apply In_for_lt; exact Hx|].
    apply In_addFaces_. exists by_. auto.
Qed.

(** The [addFace] calls of one cell, and of a whole build. *)
Lemma In_AddFace_addFacesCell this nc bx by_ bz n x y z tc :
  In (AddFace n x y z tc) (addFacesCell K W this nc bx by_ bz)
  <-> blockId (cellAt K this bx by_ bz) <> 0
      /\ 0 <= n < 6 /\ x = bx /\ y = by_ - by0 this /\ z = bz
      /\ tc = faceTex W bx by_ bz n (cellAt K this bx by_ bz)
      /\ visible K W
           (addFacesNeighbors K W this nc bx by_ bz
              (bx + bz * STRIDE_Z K + by_ * STRIDE_Y K)
              (cellAt K this bx by_ bz))
           (cellAt K this bx by_ bz) n = true.
Proof.
  unfold addFacesCell, blockId, cellAt.
  destruct (Z.eqb_spec
    (JS.read (blockData (chunk this))
       (bx + bz * STRIDE_Z K + by_ * STRIDE_Y K) >> 8) 0) as [E|E].
  - simpl. split; [contradiction|]. intros [H _]. contradiction.
  - rewrite In_AddFace_addFacesFaces. unfold cellAt. tauto.
Qed.

Lemma In_AddFace_buildEvents this n x y z tc :
  In (AddFace n x y z tc) (buildEvents K W this)
  <-> (0 <= x < SIZE /\ 0 <= z < SIZE /\ 0 <= y <= SIZE - 1)
      /\ In (AddFace n x y z tc)
            (addFacesCell K W this (fetchNeighborChunks K W this)
               x (y + by0 this) z).
Proof.
  rewrite In_buildEvents. split.
  - intros (bx & by_ & bz & Hr & H).
    pose proof H as H'. apply In_AddFace_addFacesCell in H'.
    destruct H' as (_ & _ & -> & -> & -> & _).
    replace (by_ - by0 this + by0 this) with by_ by lia.
    split; [lia|exact H].
  - intros (Hr & H). exists x, (y + by0 this), z. split; [lia|exact H].
Qed.

(** What [addFaces_] stores in the scratch array is the id of the
    neighbouring cell, cut to 16 bits. *)
Lemma blockId_0 : blockId 0 = 0.
Proof. reflexivity. Qed.

Lemma nth_addFacesNeighbors this bx by_ bz n :
  0 <= bx < SIZE -> 0 <= bz < SIZE -> 0 <= n < 6 ->
  nth (Z.to_nat n)
    (addFacesNeighbors K W this (fetchNeighborChunks K W this) bx by_ bz
       (bx + bz * STRIDE_Z K + by_ * STRIDE_Y K)
       (cellAt K this bx by_ bz)) 0
  = JS.toUint16 (blockId (neighborCell K W this bx by_ bz n)).
Proof.
  intros Hx Hz Hn. unfold SIZE in *.
  assert (Hc : n = 0 \/ n = 1 \/ n = 2 \/ n = 3 \/ n = 4 \/ n = 5) by lia.
  unfold addFacesNeighbors, neighborCell, neighborChunk,
    fetchNeighborChunks, lateralCell, cellAt, SIZE.
  destruct Hc as [->|[->|[->|[->|[->| ->]]]]]; simpl nth; f_equal.
  - destruct (Z.eqb_spec bz 15), (Z.ltb_spec (bz + 1) 16); try lia.
    + destruct (getChunk W _ _ _); [reflexivity|symmetry; apply blockId_0].
    + unfold blockId. do 2 f_equal. ring.
  - destruct (Z.eqb_spec bz 0), (Z.leb_spec 0 (bz - 1)); try lia.
    + destruct (getChunk W _ _ _); [reflexivity|symmetry; apply blockId_0].
    + unfold blockId. do 2 f_equal. ring.
  - destruct (Z.geb_spec by_ (SIZE_Y K - 1)), (Z.ltb_spec (by_ + 1) (SIZE_Y K));
      try lia.
    + symmetry; apply blockId_0.
    + unfold blockId. do 2 f_equal. ring.
  - destruct (Z.leb_spec by_ 0), (Z.leb_spec 0 (by_ - 1)); try lia.
    + reflexivity.
    + unfold blockId. do 2 f_equal. ring.
  - destruct (Z.eqb_spec bx 15), (Z.ltb_spec (bx + 1) 16); try lia.
    + destruct (getChunk W _ _ _); [reflexivity|symmetry; apply blockId_0].
    + unfold blockId. do 2 f_equal. ring.
  - destruct (Z.eqb_spec bx 0), (Z.leb_spec 0 (bx - 1)); try lia.
    + destruct (getChunk W _ _ _); [reflexivity|symmetry; apply blockId_0].
    + unfold blockId. do 2 f_equal. ring.
Qed.

Lemma toUint16_fits data : idFits data -> JS.toUint16 (blockId data) = blockId data.
Proof.
  unfold idFits, JS.toUint16. intros H. apply Z.mod_small. exact H.
Qed.

(** The guard of the emission, read as the face rule on the stored id. *)
Lemma visible_faceRule neighbors data n :
  visible K W neighbors data n = true
  <-> faceRule K W (blockId data) (nth (Z.to_nat n) neighbors 0).
Proof.
  unfold visible, faceRule, merges, JS.truthy, blockId. cbv zeta.
  rewrite orb_true_iff, andb_true_iff, !negb_true_iff, !Z.eqb_neq, Z.eqb_eq.
  reflexivity.
Qed.

Lemma In_buildInterior_addFacesCell (e : event TexCoords) this :
  In e (buildInterior K W this)
  <-> exists bx by_ bz,
        (1 <= bx < SIZE - 1 /\ 1 <= bz < SIZE - 1
         /\ by0 this <= by_ <= by0 this + SIZE - 1)
        /\ In e (addFacesCell K W this (fetchNeighborChunks K W this)
                   bx by_ bz).
Proof.
  rewrite In_buildInterior.
  split; intros (bx & by_ & bz & Hr & H); exists bx, by_, bz;
    (split; [exact Hr|]).
  - rewrite <- (@buildCell_addFacesCell this) by (unfold SIZE in *; lia).
    exact H.
  - rewrite (@buildCell_addFacesCell this (fetchNeighborChunks K W this))
      by (unfold SIZE in *; lia).
    exact H.
Qed.

(** The face rule for a trace made of visits of [addFaces_]'s loop body to
    the cells selected by [P]. *)
Lemma emitsFace_visits (evs : list (event TexCoords)) (P : Z -> Z -> Z -> Prop)
    this :
  (forall e, In e evs <->
     exists bx by_ bz,
       P bx by_ bz
       /\ In e (addFacesCell K W this (fetchNeighborChunks K W this)
                  bx by_ bz)) ->
  forall bx by_ bz n,
    P bx by_ bz -> 0 <= bx < SIZE -> 0 <= bz < SIZE -> 0 <= n < 6 ->
    blockId (cellAt K this bx by_ bz) <> 0 ->
    (emitsFace evs this bx by_ bz n
     <-> faceRule K W (blockId (cellAt K this bx by_ bz))
           (JS.toUint16 (blockId (neighborCell K W this bx by_ bz n)))).
Proof.
  intros Hev bx by_ bz n HP Hx Hz Hn Hsolid. unfold emitsFace.
  rewrite <- (nth_addFacesNeighbors this by_ Hx Hz Hn), <- visible_faceRule.
  split.
  - intros (tc & H). apply Hev in H. destruct H as (bx' & by' & bz' & _ & H).
    apply In_AddFace_addFacesCell in H.
    destruct H as (_ & _ & -> & Hy & -> & _ & Hv).
    replace by' with by_ in Hv by lia. exact Hv.
  - intros Hv. exists (faceTex W bx by_ bz n (cellAt K this bx by_ bz)).
    apply Hev. exists bx, by_, bz. split; [exact HP|].
    apply In_AddFace_addFacesCell. repeat split; auto; lia.
Qed.

(** ** Face visibility *)

(** C1.  For every solid cell of the segment and every direction [n] in
    0..5, [build] emits a quad for the cell in that direction if and only
    if the neighbour's block id is 0, or it differs from the cell's id and
    the neighbour's material has the MERGE flag; a neighbour of the same id
    never yields a face.  The same holds of the interior pass on the cells
    it visits and of the boundary pass on the outer ring.  Ids are taken to
    fit the 16-bit scratch array the code keeps neighbour ids in. *)
Theorem C1_face_rule this bx by_ bz n :
  0 <= bx < SIZE -> 0 <= bz < SIZE ->
  by0 this <= by_ <= by0 this + SIZE - 1 ->
  0 <= n < 6 ->
  blockId (cellAt K this bx by_ bz) <> 0 ->
  idFits (neighborCell K W this bx by_ bz n) ->
  let cid := blockId (cellAt K this bx by_ bz) in
  let nid := blockId (neighborCell K W this bx by_ bz n) in
  (emitsFace (buildEvents K W this) this bx by_ bz n <-> faceRule K W cid nid)
  /\ (nid = cid -> ~ emitsFace (buildEvents K W this) this bx by_ bz n)
  /\ (1 <= bx < SIZE - 1 /\ 1 <= bz < SIZE - 1 ->
      (emitsFace (buildInterior K W this) this bx by_ bz n
       <-> faceRule K W cid nid))
  /\ (onRing bx bz ->
      (emitsFace (buildBoundary K W this) this bx by_ bz n
       <-> faceRule K W cid nid)).
Proof.
  intros Hx Hz Hy Hn Hsolid Hfit cid nid.
  assert (Hb : emitsFace (buildEvents K W this) this bx by_ bz n
               <-> faceRule K W cid nid).
  { unfold cid, nid. rewrite <- (toUint16_fits Hfit).
    apply (@emitsFace_visits (buildEvents K W this)
             (fun bx by_ bz =>
                0 <= bx < SIZE /\ 0 <= bz < SIZE
                /\ by0 this <= by_ <= by0 this + SIZE - 1)
             this (fun e => In_buildEvents e this)); auto. }
  split; [exact Hb|]. split; [|split].
  - intros Heq Hem. apply Hb in Hem. unfold faceRule in Hem.
    destruct Hem as [H0|[Hne _]].
    + apply Hsolid. fold cid. rewrite <- Heq. exact H0.
    + contradiction.
  - intros [Hx' Hz']. unfold cid, nid. rewrite <- (toUint16_fits Hfit).
    apply (@emitsFace_visits (buildInterior K W this)
             (fun bx by_ bz =>
                1 <= bx < SIZE - 1 /\ 1 <= bz < SIZE - 1
                /\ by0 this <= by_ <= by0 this + SIZE - 1)
             this (fun e => In_buildInterior_addFacesCell e this)); auto.
  - intros Hr. unfold cid, nid. rewrite <- (toUint16_fits Hfit).
    apply (@emitsFace_visits (buildBoundary K W this)
             (fun bx by_ bz =>
                onRing bx bz /\ by0 this <= by_ <= by0 this + SIZE - 1)
             this (fun e => In_buildBoundary e this)); auto.
Qed.

End MesherFacts.

Lemma C1_face_rule_witness :
  let this := Example.renderer Example.single in
  let K := Example.consts in
  let W := Example.world Example.alone in
  (0 <= 5 < SIZE /\ by0 this <= 5 <= by0 this + SIZE - 1 /\ 0 <= 0 < 6
   /\ blockId (cellAt K this 5 5 5) <> 0
   /\ idFits (neighborCell K W this 5 5 5 0))
  /\ (emitsFace (buildEvents K W this) this 5 5 5 0 <-> faceRule K W 1 0).
Proof.
  assert (H : (0 <= 5 < SIZE
               /\ by0 (Example.renderer Example.single) <= 5
                  <= by0 (Example.renderer Example.single) + SIZE - 1
               /\ 0 <= 0 < 6
               /\ blockId (cellAt Example.consts
                             (Example.renderer Example.single) 5 5 5) <> 0
               /\ idFits (neighborCell Example.consts
                            (Example.world Example.alone)
                            (Example.renderer Example.single) 5 5 5 0))).
  { unfold idFits. vm_compute. repeat split; discriminate. }
  split; [exact H|].
  destruct H as (Hx & Hy & Hn & Hs & Hf).
  exact (proj1 (@C1_face_rule Z Example.consts (Example.world Example.alone)
                  (Example.renderer Example.single) 5 5 5 0
                  Hx Hx Hy Hn Hs Hf)).
Defined.

(** ** The two passes against the single path *)

Lemma flat_map_ext_In (A B : Type) (f g : A -> list B) (l : list A) :
  (forall a, In a l -> f a = g a) -> flat_map f l = flat_map g l.
Proof.
  induction l as [|a l IH]; intros H; simpl; [reflexivity|].
  rewrite (H a) by (left; reflexivity).
  rewrite IH by (intros; apply H; right; assumption).
  reflexivity.
Qed.

Lemma Permutation_flat_map_fun (A B : Type) (f g : A -> list B)
    (l : list A) :
  (forall a, In a l -> Permutation (f a) (g a)) ->
  Permutation (flat_map f l) (flat_map g l).
Proof.
  induction l as [|a l IH]; intros H; simpl; [constructor|].
  apply Permutation_app.
  - apply H. left; reflexivity.
  - apply IH. intros; apply H; right; assumption.
Qed.

Lemma Permutation_app_cross (B : Type) (x y u v : list B) :
  Permutation ((x ++ y) ++ (u ++ v)) ((x ++ u) ++ (y ++ v)).
Proof.
  rewrite <- !app_assoc. apply Permutation_app_head.
  apply Permutation_app_swap_app.
Qed.

Lemma Permutation_flat_map_split (A B : Type) (f g : A -> list B)
    (l : list A) :
  Permutation (flat_map (fun a => f a ++ g a) l)
    (flat_map f l ++ flat_map g l).
Proof.
  induction l as [|a l IH]; simpl; [constructor|].
  etransitivity; [apply Permutation_app_head; exact IH|].
  apply Permutation_app_cross.
Qed.

Lemma Permutation_flat_map_swap (A B C : Type) (f : A -> C -> list B)
    (la : list A) (lc : list C) :
  Permutation (flat_map (fun a => flat_map (fun c => f a c) lc) la)
    (flat_map (fun c => flat_map (fun a => f a c) la) lc).
Proof.
  induction la as [|a la IH]; simpl.
  - induction lc as [|c lc IHc]; simpl; [constructor|exact IHc].
  - etransitivity; [apply Permutation_app_head; exact IH|].
    symmetry.
    apply (Permutation_flat_map_split (fun c => f a c)
             (fun c => flat_map (fun a => f a c) la)).
Qed.

Lemma Permutation_nine_blocks (X : Type) (a b c d e f g h i : list X) :
  Permutation (i ++ (a ++ b) ++ (c ++ d) ++ (e ++ f) ++ (g ++ h))
    ((a ++ g ++ h) ++ (b ++ i ++ e) ++ (c ++ d ++ f)).
Proof.
  rewrite <- (app_nil_r h) at 1. rewrite <- (app_nil_r f) at 2.
  rewrite <- !app_assoc.
  rewrite (Permutation_app_swap_app i a).
  rewrite (Permutation_app_swap_app f g), (Permutation_app_swap_app e g),
    (Permutation_app_swap_app d g), (Permutation_app_swap_app c g),
    (Permutation_app_swap_app b g), (Permutation_app_swap_app i g).
  rewrite (Permutation_app_swap_app f h), (Permutation_app_swap_app e h),
    (Permutation_app_swap_app d h), (Permutation_app_swap_app c h),
    (Permutation_app_swap_app b h), (Permutation_app_swap_app i h).
  rewrite (Permutation_app_swap_app i b).
  rewrite (Permutation_app_swap_app d e), (Permutation_app_swap_app c e).
  reflexivity.
Qed.

Lemma flat_map_footprint (B : Type) (f : Z -> list B) :
  flat_map f (JS.for_lt 0 SIZE)
  = f 0 ++ flat_map f (JS.for_lt 1 (SIZE - 1)) ++ f (SIZE - 1).
Proof.
  change (JS.for_lt 0 SIZE)
    with ([0] ++ JS.for_lt 1 (SIZE - 1) ++ [SIZE - 1]).
  rewrite !flat_map_app.
  change (flat_map f [0]) with (f 0 ++ []).
  change (flat_map f [SIZE - 1]) with (f (SIZE - 1) ++ []).
  rewrite !app_nil_r. reflexivity.
Qed.

Lemma flat_map_ring_low (B : Type) (f : Z -> list B) :
  flat_map f (JS.for_lt 0 (SIZE - 1))
  = f 0 ++ flat_map f (JS.for_lt 1 (SIZE - 1)).
Proof. reflexivity. Qed.

Lemma flat_map_ring_high (B : Type) (f : Z -> list B) :
  flat_map f (JS.for_lt 1 SIZE)
  = flat_map f (JS.for_lt 1 (SIZE - 1)) ++ f (SIZE - 1).
Proof.
  change (JS.for_lt 1 SIZE) with (JS.for_lt 1 (SIZE - 1) ++ [SIZE - 1]).
  rewrite flat_map_app.
  change (flat_map f [SIZE - 1]) with (f (SIZE - 1) ++ []).
  rewrite app_nil_r. reflexivity.
Qed.

Lemma Permutation_facesOf (T : Type) (l l' : list (event T)) :
  Permutation l l' -> Permutation (facesOf l) (facesOf l').
Proof.
  induction 1 as [|e l l' _ IH|e1 e2 l|l l' l'' _ IH1 _ IH2].
  - constructor.
  - destruct e; simpl; auto.
  - destruct e1, e2; simpl; try reflexivity; try (apply perm_skip; reflexivity).
    apply perm_swap.
  - etransitivity; eassumption.
Qed.

Section CrossPath.

Variable TexCoords : Type.
Variable K : Consts.
Variable W : World TexCoords.

(** The interior pass, with the loop body of [addFaces_] in place of its
    own. *)
Lemma buildInterior_addFacesCell this nc :
  buildInterior K W this
  = flat_map (fun by_ =>
      flat_map (fun bz =>
        flat_map (fun bx => addFacesCell K W this nc bx by_ bz)
          (JS.for_lt 1 (SIZE - 1)))
        (JS.for_lt 1 (SIZE - 1)))
      (JS.for_le (by0 this) (by0 this + SIZE - 1)).
Proof.
  unfold buildInterior.
  apply flat_map_ext_In. intros by_ _.
  apply flat_map_ext_In. intros bz Hz. apply In_for_lt in Hz.
  apply flat_map_ext_In. intros bx Hx. apply In_for_lt in Hx.
  apply buildCell_addFacesCell; unfold SIZE in *; lia.
Qed.

(** The interior pass, column by column. *)
Lemma buildInterior_columns this :
  Permutation (buildInterior K W this)
    (flat_map (fun bz =>
       flat_map (fun bx =>
         addFaces_ K W this bx (by0 this) (by0 this + SIZE - 1) bz
           (fetchNeighborChunks K W this))
         (JS.for_lt 1 (SIZE - 1)))
       (JS.for_lt 1 (SIZE - 1))).
Proof.
  unfold buildInterior, addFaces_.
  rewrite (flat_map_ext_In
             (fun by_ =>
                flat_map (fun bz =>
                  flat_map (fun bx => buildCell K W this bx by_ bz)
                    (JS.for_lt 1 (SIZE - 1))) (JS.for_lt 1 (SIZE - 1)))
             (fun by_ =>
                flat_map (fun bz =>
                  flat_map (fun bx =>
                    addFacesCell K W this (fetchNeighborChunks K W this)
                      bx by_ bz)
                    (JS.for_lt 1 (SIZE - 1))) (JS.for_lt 1 (SIZE - 1)))).
  - etransitivity;
      [apply (Permutation_flat_map_swap
                (fun by_ bz =>
                   flat_map (fun bx =>
                     addFacesCell K W this (fetchNeighborChunks K W this)
                       bx by_ bz) (JS.for_lt 1 (SIZE - 1))))|].
    apply Permutation_flat_map_fun. intros bz _.
    apply (Permutation_flat_map_swap
             (fun by_ bx =>
                addFacesCell K W this (fetchNeighborChunks K W this)
                  bx by_ bz)).
  - intros by_ _.
    apply flat_map_ext_In. intros bz Hz. apply In_for_lt in Hz.
    apply flat_map_ext_In. intros bx Hx. apply In_for_lt in Hx.
    apply buildCell_addFacesCell; unfold SIZE in *; lia.
Qed.

(** The whole trace of [build] is a rearrangement of the single path's. *)
Lemma buildEvents_singlePath this :
  Permutation (buildEvents K W this) (singlePathEvents K W this).
Proof.
  unfold buildEvents, singlePathEvents.
  rewrite (buildInterior_columns this). unfold buildBoundary.
  set (col := fun bx bz =>
         addFaces_ K W this bx (by0 this) (by0 this + SIZE - 1) bz
           (fetchNeighborChunks K W this)).
  change (Permutation
    (flat_map (fun bz => flat_map (fun bx => col bx bz)
                           (JS.for_lt 1 (SIZE - 1)))
       (JS.for_lt 1 (SIZE - 1))
     ++ flat_map (fun bz => col 0 bz) (JS.for_lt 0 (SIZE - 1))
     ++ flat_map (fun bx => col bx (SIZE - 1)) (JS.for_lt 0 (SIZE - 1))
     ++ flat_map (fun bz => col (SIZE - 1) bz) (JS.for_lt 1 SIZE)
     ++ flat_map (fun bx => col bx 0) (JS.for_lt 1 SIZE))
    (flat_map (fun bz => flat_map (fun bx => col bx bz) (JS.for_lt 0 SIZE))
       (JS.for_lt 0 SIZE))).
  rewrite !flat_map_ring_low, !flat_map_ring_high.
  rewrite (flat_map_footprint
             (fun bz => flat_map (fun bx => col bx bz) (JS.for_lt 0 SIZE))).
  rewrite !flat_map_footprint.
  rewrite (flat_map_ext
             (fun bz => flat_map (fun bx => col bx bz) (JS.for_lt 0 SIZE))
             (fun bz => col 0 bz
                        ++ flat_map (fun bx => col bx bz)
                             (JS.for_lt 1 (SIZE - 1))
                        ++ col (SIZE - 1) bz))
    by (intros bz; apply flat_map_footprint).
  rewrite (Permutation_flat_map_split (fun bz => col 0 bz)).
  rewrite (Permutation_flat_map_split
             (fun bz => flat_map (fun bx => col bx bz)
                          (JS.for_lt 1 (SIZE - 1)))).
  apply Permutation_nine_blocks.
Qed.

(** C2.  At every position where both paths apply (off the outer ring)
    the body of the interior pass and the body of [addFaces_] make the same
    calls, so emit the same faces with the same texture slots; the trace of
    [build] is, call for call, the trace of the same scan done on the slow
    path alone; and it is a rearrangement of what [addFaces_] run on every
    column produces, with the same faces. *)
Theorem C2_paths_agree this :
  (forall nc bx by_ bz,
     1 <= bx < SIZE - 1 -> 1 <= bz < SIZE - 1 ->
     buildCell K W this bx by_ bz = addFacesCell K W this nc bx by_ bz)
  /\ buildEvents K W this = slowPathEvents K W this
  /\ Permutation (buildEvents K W this) (singlePathEvents K W this)
  /\ Permutation (facesOf (buildEvents K W this))
       (facesOf (singlePathEvents K W this))
  /\ (forall e, In e (buildEvents K W this)
                <-> In e (singlePathEvents K W this)).
Proof.
  split; [|split; [|split; [|split]]].
  - intros nc bx by_ bz Hx Hz.
    apply buildCell_addFacesCell; unfold SIZE in *; lia.
  - unfold buildEvents, slowPathEvents.
    rewrite (buildInterior_addFacesCell this (fetchNeighborChunks K W this)).
    reflexivity.
  - apply buildEvents_singlePath.
  - apply Permutation_facesOf, buildEvents_singlePath.
  - intros e. rewrite In_buildEvents, In_singlePathEvents. reflexivity.
Qed.

End CrossPath.

Lemma C2_paths_agree_witness :
  (1 <= 5 < SIZE - 1)
  /\ buildCell Example.consts (Example.world Example.alone)
       (Example.renderer Example.single) 5 5 5
     = addFacesCell Example.consts (Example.world Example.alone)
         (Example.renderer Example.single) [None; None; None; None] 5 5 5.
Proof.
  assert (H : 1 <= 5 < SIZE - 1) by (unfold SIZE; lia).
  split; [exact H|].
  exact (proj1 (@C2_paths_agree Z Example.consts
                  (Example.world Example.alone)
                  (Example.renderer Example.single))
           [None; None; None; None] 5 5 5 H H).
Defined.

(** ** Emission order *)

Lemma StronglySorted_app (A : Type) (R : A -> A -> Prop) (l1 l2 : list A) :
  StronglySorted R l1 -> StronglySorted R l2 ->
  (forall x y, In x l1 -> In y l2 -> R x y) ->
  StronglySorted R (l1 ++ l2).
Proof.
  induction 1 as [|a l Hl IH Ha]; intros H2 Hc; simpl; [exact H2|].
  constructor.
  - apply IH; [exact H2|]. intros x y Hx Hy. apply Hc; [right|]; assumption.
  - apply Forall_app. split; [exact Ha|].
    apply Forall_forall. intros y Hy. apply Hc; [left; reflexivity|exact Hy].
Qed.

Lemma StronglySorted_flat_map (A B : Type) (RA : A -> A -> Prop)
    (R : B -> B -> Prop) (f : A -> list B) (l : list A) :
  StronglySorted RA l ->
  (forall a, In a l -> StronglySorted R (f a)) ->
  (forall a a' b b', RA a a' -> In b (f a) -> In b' (f a') -> R b b') ->
  StronglySorted R (flat_map f l).
Proof.
  induction 1 as [|a l Hl IH Ha]; intros Hf Hc; simpl; [constructor|].
  apply StronglySorted_app.
  - apply Hf. left; reflexivity.
  - apply IH; [|exact Hc]. intros; apply Hf; right; assumption.
  - intros x y Hx Hy. apply in_flat_map in Hy. destruct Hy as (a' & Ha' & Hy).
    rewrite Forall_forall in Ha. exact (Hc a a' x y (Ha a' Ha') Hx Hy).
Qed.

Lemma StronglySorted_count_from lo n : StronglySorted Z.lt (JS.count_from lo n).
Proof.
  revert lo; induction n as [|n IH]; intros lo; simpl; constructor.
  - apply IH.
  - apply Forall_forall. intros x Hx. apply In_count_from in Hx. lia.
Qed.

Lemma StronglySorted_for_lt lo hi : StronglySorted Z.lt (JS.for_lt lo hi).
Proof. apply StronglySorted_count_from. Qed.

Lemma StronglySorted_for_le lo hi : StronglySorted Z.lt (JS.for_le lo hi).
Proof. apply StronglySorted_count_from. Qed.

Lemma facesOf_app (T : Type) (l1 l2 : list (event T)) :
  facesOf (l1 ++ l2) = facesOf l1 ++ facesOf l2.
Proof.
  induction l1 as [|e l1 IH]; simpl; [reflexivity|].
  destruct e; simpl; rewrite IH; reflexivity.
Qed.

Lemma facesOf_flat_map (T A : Type) (f : A -> list (event T)) (l : list A) :
  facesOf (flat_map f l) = flat_map (fun a => facesOf (f a)) l.
Proof.
  induction l as [|a l IH]; simpl; [reflexivity|].
  rewrite facesOf_app, IH. reflexivity.
Qed.

Lemma In_facesOf (T : Type) (f : Face T) (evs : list (event T)) :
  In f (facesOf evs)
  <-> In (AddFace (face_n f) (face_x f) (face_y f) (face_z f) (face_tex f))
        evs.
Proof.
  induction evs as [|e evs IH]; simpl; [reflexivity|].
  destruct e; simpl; rewrite IH;
    try (split; [auto|intros [H|H]; [discriminate|exact H]]).
  split; intros [H|H]; auto; left.
  - subst f. reflexivity.
  - destruct f; simpl in H. inversion H; subst. reflexivity.
Qed.

Section EmissionOrder.

Variable TexCoords : Type.
Variable K : Consts.
Variable W : World TexCoords.

(** The faces of one cell, direction by direction. *)
Lemma facesOf_addFacesFaces this bx by_ bz data neighbors :
  facesOf (addFacesFaces K W this bx by_ bz data neighbors)
  = flat_map (fun n =>
      if visible K W neighbors data n
      then [{| face_n := n; face_x := bx; face_y := by_ - by0 this;
               face_z := bz; face_tex := faceTex W bx by_ bz n data |}]
      else [])
    (JS.for_lt 0 6).
Proof.
  unfold addFacesFaces.
  cbn [facesOf]. rewrite facesOf_flat_map. apply flat_map_ext. intros n.
  unfold visible. cbv zeta.
  destruct (nth (Z.to_nat n) neighbors 0 =? 0); [reflexivity|].
  destruct (nth (Z.to_nat n) neighbors 0 =? data >> 8); [reflexivity|].
  simpl. destruct (JS.truthy _); reflexivity.
Qed.

Lemma In_facesOf_addFacesCell f this nc bx by_ bz :
  In f (facesOf (addFacesCell K W this nc bx by_ bz)) ->
  face_x f = bx /\ face_y f = by_ - by0 this /\ face_z f = bz
  /\ 0 <= face_n f < 6.
Proof.
  rewrite In_facesOf, In_AddFace_addFacesCell. tauto.
Qed.

(** Within a cell the faces come in the order of the directions. *)
Lemma facesOf_addFacesCell_sorted (R : Face TexCoords -> Face TexCoords -> Prop)
    this nc bx by_ bz :
  (forall f g,
     face_x f = bx -> face_x g = bx ->
     face_y f = by_ - by0 this -> face_y g = by_ - by0 this ->
     face_z f = bz -> face_z g = bz ->
     face_n f < face_n g -> R f g) ->
  StronglySorted R (facesOf (addFacesCell K W this nc bx by_ bz)).
Proof.
  intros HR. unfold addFacesCell.
  destruct (_ =? 0); [constructor|].
  rewrite facesOf_addFacesFaces.
  apply StronglySorted_flat_map with (RA := Z.lt).
  - apply StronglySorted_for_lt.
  - intros n _. destruct (visible _ _ _ _ _); repeat constructor.
  - intros n n' f g Hlt Hf Hg.
    destruct (visible K W _ _ n); [|contradiction].
    destruct (visible K W _ _ n'); [|contradiction].
    destruct Hf as [<-|[]]. destruct Hg as [<-|[]].
    apply HR; simpl; auto.
Qed.

(** Within a column the faces come by ascending Y, then direction. *)
Lemma In_facesOf_addFaces_ f this bx bymin bymax bz nc :
  In f (facesOf (addFaces_ K W this bx bymin bymax bz nc)) ->
  face_x f = bx /\ face_z f = bz
  /\ bymin - by0 this <= face_y f <= bymax - by0 this
  /\ 0 <= face_n f < 6.
Proof.
  unfold addFaces_. rewrite facesOf_flat_map. intros H.
  apply in_flat_map in H. destruct H as (by_ & Hy & H).
  apply In_for_le in Hy. apply In_facesOf_addFacesCell in H. lia.
Qed.

Lemma facesOf_addFaces_sorted (R : Face TexCoords -> Face TexCoords -> Prop)
    this bx bymin bymax bz nc :
  (forall f g,
     face_x f = bx -> face_x g = bx -> face_z f = bz -> face_z g = bz ->
     face_y f < face_y g \/ (face_y f = face_y g /\ face_n f < face_n g) ->
     R f g) ->
  StronglySorted R (facesOf (addFaces_ K W this bx bymin bymax bz nc)).
Proof.
  intros HR. unfold addFaces_. rewrite facesOf_flat_map.
  apply StronglySorted_flat_map with (RA := Z.lt).
  - apply StronglySorted_for_le.
  - intros by_ _. apply facesOf_addFacesCell_sorted.
    intros f g Hfx Hgx Hfy Hgy Hfz Hgz Hn. apply HR; auto. right. lia.
  - intros by_ by' f g Hlt Hf Hg.
    apply In_facesOf_addFacesCell in Hf, Hg. apply HR; try tauto. left. lia.
Qed.

Lemma buildInterior_sorted this :
  StronglySorted (fun f g => lexLt (interiorKey f) (interiorKey g))
    (facesOf (buildInterior K W this)).
Proof.
  rewrite (buildInterior_addFacesCell K W this
             (fetchNeighborChunks K W this)).
  set (nc := fetchNeighborChunks K W this).
  rewrite facesOf_flat_map.
  apply StronglySorted_flat_map with (RA := Z.lt).
  - apply StronglySorted_for_le.
  - intros by_ _. rewrite facesOf_flat_map.
    apply StronglySorted_flat_map with (RA := Z.lt).
    + apply StronglySorted_for_lt.
    + intros bz _. rewrite facesOf_flat_map.
      apply StronglySorted_flat_map with (RA := Z.lt).
      * apply StronglySorted_for_lt.
      * intros bx _. apply facesOf_addFacesCell_sorted.
        intros f g Hfx Hgx Hfy Hgy Hfz Hgz Hn.
        unfold interiorKey. simpl. lia.
      * intros bx bx' f g Hlt Hf Hg.
        apply In_facesOf_addFacesCell in Hf, Hg.
        unfold interiorKey. simpl. lia.
    + intros bz bz' f g Hlt Hf Hg.
      rewrite facesOf_flat_map in Hf, Hg. apply in_flat_map in Hf, Hg.
      destruct Hf as (bx & _ & Hf). destruct Hg as (bx' & _ & Hg).
      apply In_facesOf_addFacesCell in Hf, Hg.
      unfold interiorKey. simpl. lia.
  - intros by_ by' f g Hlt Hf Hg.
    rewrite facesOf_flat_map in Hf, Hg. apply in_flat_map in Hf, Hg.
    destruct Hf as (bz & _ & Hf). destruct Hg as (bz' & _ & Hg).
    rewrite facesOf_flat_map in Hf, Hg. apply in_flat_map in Hf, Hg.
    destruct Hf as (bx & _ & Hf). destruct Hg as (bx' & _ & Hg).
    apply In_facesOf_addFacesCell in Hf, Hg.
    unfold interiorKey. simpl. lia.
Qed.

Lemma ringIndex_onRing x z :
  (x = 0 -> 0 <= z < SIZE - 1 -> ringIndex x z = z)
  /\ (z = SIZE - 1 -> 0 <= x < SIZE - 1 -> ringIndex x z = 15 + x)
  /\ (x = SIZE - 1 -> 1 <= z < SIZE -> ringIndex x z = 29 + z)
  /\ (z = 0 -> 1 <= x < SIZE -> ringIndex x z = 44 + x).
Proof.
  unfold ringIndex, SIZE.
  destruct (Z.eqb_spec x 0), (Z.ltb_spec z (16 - 1)), (Z.eqb_spec z (16 - 1)),
    (Z.ltb_spec x (16 - 1)), (Z.eqb_spec x (16 - 1)), (Z.ltb_spec 0 z);
    simpl; repeat split; intros; lia.
Qed.

(** One of the four loops of the boundary pass: its columns [(fx v, fz v)]
    sit at ring positions [base + v]. *)
Lemma ring_sorted this (fx fz : Z -> Z) (lo hi base : Z) :
  (forall v, lo <= v < hi -> ringIndex (fx v) (fz v) = base + v) ->
  let fs := facesOf
    (flat_map (fun v =>
       addFaces_ K W this (fx v) (by0 this) (by0 this + SIZE - 1) (fz v)
         (fetchNeighborChunks K W this))
       (JS.for_lt lo hi)) in
  StronglySorted (fun f g => lexLt (boundaryKey f) (boundaryKey g)) fs
  /\ (forall f, In f fs ->
        base + lo <= ringIndex (face_x f) (face_z f) < base + hi).
Proof.
  intros Hidx fs. unfold fs. rewrite facesOf_flat_map. split.
  - assert (Hs : forall l,
      (forall v, In v l -> lo <= v < hi) -> StronglySorted Z.lt l ->
      StronglySorted (fun f g => lexLt (boundaryKey f) (boundaryKey g))
        (flat_map (fun v =>
           facesOf
             (addFaces_ K W this (fx v) (by0 this) (by0 this + SIZE - 1)
                (fz v) (fetchNeighborChunks K W this))) l)).
    { intros l Hl. induction 1 as [|a l Hsl IH Ha]; simpl; [constructor|].
      apply StronglySorted_app.
      - apply facesOf_addFaces_sorted.
        intros f g Hfx Hgx Hfz Hgz Hyn. unfold boundaryKey.
        rewrite Hfx, Hgx, Hfz, Hgz. simpl. lia.
      - apply IH. intros; apply Hl; right; assumption.
      - intros f g Hf Hg. apply in_flat_map in Hg.
        destruct Hg as (a' & Ha' & Hg).
        apply In_facesOf_addFaces_ in Hf, Hg.
        destruct Hf as (Hfx & Hfz & _). destruct Hg as (Hgx & Hgz & _).
        rewrite Forall_forall in Ha. specialize (Ha a' Ha').
        unfold boundaryKey. rewrite Hfx, Hgx, Hfz, Hgz.
        rewrite (Hidx a) by (apply Hl; left; reflexivity).
        rewrite (Hidx a') by (apply Hl; right; assumption).
        simpl. lia. }
    apply Hs; [|apply StronglySorted_for_lt].
    intros v Hv. apply In_for_lt in Hv. exact Hv.
  - intros f Hf. apply in_flat_map in Hf. destruct Hf as (v & Hv & Hf).
    apply In_for_lt in Hv. apply In_facesOf_addFaces_ in Hf.
    destruct Hf as (Hfx & Hfz & _). rewrite Hfx, Hfz, (Hidx v Hv). lia.
Qed.

Lemma buildBoundary_sorted this :
  StronglySorted (fun f g => lexLt (boundaryKey f) (boundaryKey g))
    (facesOf (buildBoundary K W this)).
Proof.
  unfold buildBoundary. rewrite !facesOf_app.
  destruct (@ring_sorted this (fun _ => 0) (fun v => v) 0 (SIZE - 1) 0)
    as [S1 B1].
  { intros v Hv. apply ringIndex_onRing; [reflexivity|exact Hv]. }
  destruct (@ring_sorted this (fun v => v) (fun _ => SIZE - 1) 0 (SIZE - 1) 15)
    as [S2 B2].
  { intros v Hv. apply ringIndex_onRing; [reflexivity|exact Hv]. }
  destruct (@ring_sorted this (fun _ => SIZE - 1) (fun v => v) 1 SIZE 29)
    as [S3 B3].
  { intros v Hv. apply ringIndex_onRing; [reflexivity|exact Hv]. }
  destruct (@ring_sorted this (fun v => v) (fun _ => 0) 1 SIZE 44)
    as [S4 B4].
  { intros v Hv. apply ringIndex_onRing; [reflexivity|exact Hv]. }
  cbv beta in S1, S2, S3, S4, B1, B2, B3, B4.
  assert (Hlt : forall f g : Face TexCoords,
    ringIndex (face_x f) (face_z f) < ringIndex (face_x g) (face_z g) ->
    lexLt (boundaryKey f) (boundaryKey g)).
  { intros f g H. unfold boundaryKey. simpl. lia. }
  unfold SIZE in *.
  apply StronglySorted_app; [exact S1| |].
  2:{ intros f g Hf Hg. apply Hlt. apply B1 in Hf.
      rewrite !in_app_iff in Hg. destruct Hg as [Hg|[Hg|Hg]];
        [apply B2 in Hg|apply B3 in Hg|apply B4 in Hg]; lia. }
  apply StronglySorted_app; [exact S2| |].
  2:{ intros f g Hf Hg. apply Hlt. apply B2 in Hf.
      rewrite !in_app_iff in Hg. destruct Hg as [Hg|Hg];
        [apply B3 in Hg|apply B4 in Hg]; lia. }
  apply StronglySorted_app; [exact S3|exact S4|].
  intros f g Hf Hg. apply Hlt. apply B3 in Hf. apply B4 in Hg. lia.
Qed.

(** C3 (as amended).  The faces [build] emits are a function of the voxel
    data: a second [build] right after the first makes the same calls and
    hands the same face list to the block builder.  The faces of the
    interior pass come first, ordered by Y, then Z, then X, then direction;
    the faces of the boundary pass follow, ordered by the column's position
    on the ring, then Y, then direction. *)
Theorem C3_emission_order this :
  let again := fst (fst (build K W this)) in
  buildEvents K W again = buildEvents K W this
  /\ facesOf (snd (build K W again)) = facesOf (snd (build K W this))
  /\ facesOf (snd (build K W this))
     = facesOf (buildInterior K W this) ++ facesOf (buildBoundary K W this)
  /\ StronglySorted (fun f g => lexLt (interiorKey f) (interiorKey g))
       (facesOf (buildInterior K W this))
  /\ StronglySorted (fun f g => lexLt (boundaryKey f) (boundaryKey g))
       (facesOf (buildBoundary K W this)).
Proof.
  intros again.
  assert (Hsame : buildEvents K W again = buildEvents K W this)
    by reflexivity.
  assert (Hfaces : forall s,
    facesOf (snd (build K W s)) = facesOf (buildEvents K W s)).
  { intros s. unfold build. cbn [snd]. rewrite facesOf_app. cbn [facesOf].
    apply app_nil_r. }
  split; [|split; [|split; [|split]]].
  - exact Hsame.
  - rewrite !Hfaces, Hsame. reflexivity.
  - rewrite Hfaces. unfold buildEvents. apply facesOf_app.
  - apply buildInterior_sorted.
  - apply buildBoundary_sorted.
Qed.

End EmissionOrder.

Lemma StronglySorted_nth (A : Type) (R : A -> A -> Prop) (l : list A) (d : A) :
  StronglySorted R l ->
  forall i j : nat, (i < j < length l)%nat -> R (nth i l d) (nth j l d).
Proof.
  induction 1 as [|a l Hl IH Ha]; intros i j Hij; simpl in Hij; [lia|].
  destruct j as [|j]; [lia|]. destruct i as [|i]; simpl.
  - rewrite Forall_forall in Ha. apply Ha. apply nth_In. lia.
  - apply IH. lia.
Qed.

(** C3, as stated, fails: with blocks at [(0, 1, 0)] and [(0, 0, 1)] the
    boundary pass emits the six faces at Y = 1 before the five faces at
    Y = 0. *)
Lemma C3_counterexample :
  let K := Example.consts in
  let W := Example.world Example.alone in
  let this := Example.renderer Example.pair in
  ~ StronglySorted (fun f g => lexLt (yFirstKey f) (yFirstKey g))
      (facesOf (buildBoundary K W this))
  /\ ~ yAscending (facesOf (buildBoundary K W this))
  /\ ~ yAscending (facesOf (snd (build K W this))).
Proof.
  intros K W this.
  set (quad := fun y z n : Z =>
         {| face_n := n; face_x := 0; face_y := y; face_z := z;
            face_tex := 6 + n |}).
  set (expected := map (quad 1 0) [0; 1; 2; 3; 4; 5]
                   ++ map (quad 0 1) [0; 1; 2; 4; 5]).
  assert (Eb : facesOf (buildBoundary K W this) = expected)
    by (vm_compute; reflexivity).
  assert (Ea : facesOf (snd (build K W this)) = expected)
    by (vm_compute; reflexivity).
  unfold yAscending. rewrite Ea, Eb.
  assert (Hlen : (0 < 6 < length expected)%nat) by (simpl; lia).
  repeat split; intros H;
    apply (@StronglySorted_nth _ _ _ (quad 0 0 0) H) in Hlen;
    simpl in Hlen; lia.
Qed.

(** ** Chunk edges, floor and top *)

Section EdgePolicies.

Variable TexCoords : Type.
Variable K : Consts.
Variable W : World TexCoords.

(** The face rule of a whole [build], on the id as the scratch array
    holds it. *)
Lemma emitsFace_buildEvents this bx by_ bz n :
  0 <= bx < SIZE -> 0 <= bz < SIZE ->
  by0 this <= by_ <= by0 this + SIZE - 1 ->
  0 <= n < 6 ->
  blockId (cellAt K this bx by_ bz) <> 0 ->
  (emitsFace (buildEvents K W this) this bx by_ bz n
   <-> faceRule K W (blockId (cellAt K this bx by_ bz))
         (JS.toUint16 (blockId (neighborCell K W this bx by_ bz n)))).
Proof.
  intros Hx Hz Hy Hn Hsolid.
  apply (@emitsFace_visits TexCoords K W (buildEvents K W this)
           (fun bx by_ bz =>
              0 <= bx < SIZE /\ 0 <= bz < SIZE
              /\ by0 this <= by_ <= by0 this + SIZE - 1)
           this (fun e => In_buildEvents K W e this)); auto.
Qed.

(** The same for the boundary pass, on the outer ring. *)
Lemma emitsFace_buildBoundary this bx by_ bz n :
  0 <= bx < SIZE -> 0 <= bz < SIZE -> onRing bx bz ->
  by0 this <= by_ <= by0 this + SIZE - 1 ->
  0 <= n < 6 ->
  blockId (cellAt K this bx by_ bz) <> 0 ->
  (emitsFace (buildBoundary K W this) this bx by_ bz n
   <-> faceRule K W (blockId (cellAt K this bx by_ bz))
         (JS.toUint16 (blockId (neighborCell K W this bx by_ bz n)))).
Proof.
  intros Hx Hz Hr Hy Hn Hsolid.
  apply (@emitsFace_visits TexCoords K W (buildBoundary K W this)
           (fun bx by_ bz =>
              onRing bx bz /\ by0 this <= by_ <= by0 this + SIZE - 1)
           this (fun e => In_buildBoundary K W e this)); auto.
Qed.

Lemma acrossEdge_onRing bx bz n :
  0 <= bx < SIZE -> 0 <= bz < SIZE -> acrossEdge bx bz n -> onRing bx bz.
Proof.
  unfold acrossEdge, onRing, SIZE. lia.
Qed.

(** A face that is emitted belongs to a solid cell the build visits. *)
Lemma emitsFace_inv this bx by_ bz n :
  emitsFace (buildEvents K W this) this bx by_ bz n ->
  (0 <= bx < SIZE /\ 0 <= bz < SIZE
   /\ by0 this <= by_ <= by0 this + SIZE - 1 /\ 0 <= n < 6)
  /\ blockId (cellAt K this bx by_ bz) <> 0.
Proof.
  intros (tc & H). apply In_AddFace_buildEvents in H.
  destruct H as (Hr & H).
  replace (by_ - by0 this + by0 this) with by_ in H by lia.
  apply In_AddFace_addFacesCell in H. split; [lia|tauto].
Qed.

Lemma neighborCell_acrossEdge this bx by_ bz n :
  0 <= bx < SIZE -> 0 <= bz < SIZE -> acrossEdge bx bz n ->
  neighborCell K W this bx by_ bz n
  = match lateralChunk K W this n with
    | Some c => cellAcross W this c bx by_ bz n
    | None => 0
    end.
Proof.
  unfold acrossEdge, neighborCell, lateralChunk, cellAcross, lateralCell, SIZE.
  intros Hx Hz [[-> ->]|[[-> ->]|[[-> ->]|[-> ->]]]]; reflexivity.
Qed.

(** C4.  For a solid cell on the edge of the chunk and a direction that
    leaves the chunk: when the neighbour chunk is not loaded, [addFaces_]
    stores 0 as the neighbour's id and the boundary pass emits the face; when it is loaded and
    holds, next to the cell, a block of the same type (its id fitting the
    16-bit scratch array), the face is emitted by neither pass. *)
Theorem C4_chunk_edge this bx by_ bz n :
  0 <= bx < SIZE -> 0 <= bz < SIZE ->
  by0 this <= by_ <= by0 this + SIZE - 1 ->
  acrossEdge bx bz n ->
  blockId (cellAt K this bx by_ bz) <> 0 ->
  (lateralChunk K W this n = None ->
   nth (Z.to_nat n)
     (addFacesNeighbors K W this (fetchNeighborChunks K W this) bx by_ bz
        (bx + bz * STRIDE_Z K + by_ * STRIDE_Y K)
        (cellAt K this bx by_ bz)) 0 = 0
   /\ emitsFace (buildBoundary K W this) this bx by_ bz n
   /\ emitsFace (buildEvents K W this) this bx by_ bz n)
  /\ (forall c,
        lateralChunk K W this n = Some c ->
        idFits (cellAcross W this c bx by_ bz n) ->
        blockId (cellAcross W this c bx by_ bz n)
        = blockId (cellAt K this bx by_ bz) ->
        ~ emitsFace (buildBoundary K W this) this bx by_ bz n
        /\ ~ emitsFace (buildEvents K W this) this bx by_ bz n).
Proof.
  intros Hx Hz Hy He Hsolid.
  assert (Hn : 0 <= n < 6) by (unfold acrossEdge in He; lia).
  pose proof (emitsFace_buildEvents this Hx Hz Hy Hn Hsolid) as Hrule.
  pose proof (emitsFace_buildBoundary this Hx Hz
                (acrossEdge_onRing Hx Hz He) Hy Hn Hsolid) as Hring.
  rewrite (nth_addFacesNeighbors K W this by_ Hx Hz Hn).
  rewrite (neighborCell_acrossEdge this by_ Hx Hz He) in Hrule, Hring |- *.
  split.
  - intros Hnone. rewrite Hnone in Hrule, Hring |- *.
    split; [reflexivity|].
    split; [apply Hring|apply Hrule]; left; reflexivity.
  - intros c Hsome Hfit Hsame. rewrite Hsome in Hrule, Hring.
    rewrite (toUint16_fits Hfit), Hsame in Hrule, Hring.
    assert (Hno : ~ faceRule K W (blockId (cellAt K this bx by_ bz))
                      (blockId (cellAt K this bx by_ bz))).
    { intros [H0|[Hne _]]; [apply Hsolid; exact H0|apply Hne; reflexivity]. }
    split; intros Hem; apply Hno; [apply Hring|apply Hrule]; exact Hem.
Qed.

(** C5.  For a cell at or below Y = 0 whose id fits the 16-bit scratch
    array both passes store the cell's own id as the neighbour below, and
    [build] emits no face 3 (-Y) for it, whatever the flags of any
    material.  For a cell at or above the chunk's top layer both passes
    store 0 as the neighbour above, and a solid cell there gets its face 2
    (+Y). *)
Theorem C5_floor_and_top this bx by_ bz :
  (by_ <= 0 -> idFits (cellAt K this bx by_ bz) ->
   (forall bo,
      nth 3 (buildNeighbors K this bo by_ (cellAt K this bx by_ bz)) 0
      = blockId (cellAt K this bx by_ bz))
   /\ (forall nc bo,
         nth 3 (addFacesNeighbors K W this nc bx by_ bz bo
                  (cellAt K this bx by_ bz)) 0
         = blockId (cellAt K this bx by_ bz))
   /\ ~ emitsFace (buildEvents K W this) this bx by_ bz 3)
  /\ (by_ >= SIZE_Y K - 1 ->
      (forall bo data, nth 2 (buildNeighbors K this bo by_ data) 0 = 0)
      /\ (forall nc bo data,
            nth 2 (addFacesNeighbors K W this nc bx by_ bz bo data) 0 = 0)
      /\ (0 <= bx < SIZE -> 0 <= bz < SIZE ->
          by0 this <= by_ <= by0 this + SIZE - 1 ->
          blockId (cellAt K this bx by_ bz) <> 0 ->
          emitsFace (buildEvents K W this) this bx by_ bz 2)).
Proof.
  split.
  - intros Hfloor Hfit.
    assert (Hleb : (by_ <=? 0) = true) by (apply Z.leb_le; exact Hfloor).
    split; [|split].
    + intros bo. unfold buildNeighbors. cbn [nth]. rewrite Hleb.
      apply (toUint16_fits Hfit).
    + intros nc bo. unfold addFacesNeighbors. cbn [nth]. rewrite Hleb.
      apply (toUint16_fits Hfit).
    + intros Hem. pose proof (emitsFace_inv Hem) as [(Hx & Hz & Hy & Hn) Hs].
      apply (emitsFace_buildEvents this Hx Hz Hy Hn Hs) in Hem.
      assert (Hself : neighborCell K W this bx by_ bz 3
                      = cellAt K this bx by_ bz).
      { unfold neighborCell.
        destruct (Z.leb_spec 0 (by_ - 1)); [lia|reflexivity]. }
      rewrite Hself, (toUint16_fits Hfit) in Hem.
      destruct Hem as [H0|[Hne _]]; [apply Hs; exact H0|apply Hne; reflexivity].
  - intros Htop.
    assert (Hgeb : (by_ >=? SIZE_Y K - 1) = true).
    { rewrite Z.geb_leb. apply Z.leb_le. lia. }
    split; [|split].
    + intros bo data. unfold buildNeighbors. cbn [nth]. rewrite Hgeb.
      reflexivity.
    + intros nc bo data. unfold addFacesNeighbors. cbn [nth]. rewrite Hgeb.
      reflexivity.
    + intros Hx Hz Hy Hs.
      apply (emitsFace_buildEvents this Hx Hz Hy (n := 2)); [lia|exact Hs|].
      left. unfold neighborCell.
      destruct (Z.ltb_spec (by_ + 1) (SIZE_Y K)); [lia|reflexivity].
Qed.

End EdgePolicies.

Lemma C4_chunk_edge_witness :
  let K := Example.consts in
  let this := Example.renderer Example.pair in
  (0 <= 0 < SIZE /\ by0 this <= 1 <= by0 this + SIZE - 1
   /\ acrossEdge 0 0 5 /\ blockId (cellAt K this 0 1 0) <> 0
   /\ lateralChunk K (Example.world Example.alone) this 5 = None
   /\ lateralChunk K (Example.world Example.beside) this 5
      = Some Example.west
   /\ idFits (cellAcross (Example.world Example.beside) this Example.west
                0 1 0 5)
   /\ blockId (cellAcross (Example.world Example.beside) this Example.west
                 0 1 0 5)
      = blockId (cellAt K this 0 1 0))
  /\ emitsFace (buildEvents K (Example.world Example.alone) this) this 0 1 0 5
  /\ ~ emitsFace (buildEvents K (Example.world Example.beside) this)
        this 0 1 0 5.
Proof.
  intros K this.
  assert (H : 0 <= 0 < SIZE /\ by0 this <= 1 <= by0 this + SIZE - 1
              /\ acrossEdge 0 0 5 /\ blockId (cellAt K this 0 1 0) <> 0
              /\ lateralChunk K (Example.world Example.alone) this 5 = None
              /\ lateralChunk K (Example.world Example.beside) this 5
                 = Some Example.west
              /\ idFits (cellAcross (Example.world Example.beside) this
                           Example.west 0 1 0 5)
              /\ blockId (cellAcross (Example.world Example.beside) this
                            Example.west 0 1 0 5)
                 = blockId (cellAt K this 0 1 0)).
  { unfold acrossEdge, idFits. vm_compute.
    repeat split; try discriminate; try reflexivity.
    right; right; right. split; reflexivity. }
  split; [exact H|].
  destruct H as (Hx & Hy & He & Hs & Hnone & Hsome & Hfit & Hsame).
  split.
  - exact (proj2 (proj2 (proj1 (@C4_chunk_edge Z K
                                  (Example.world Example.alone)
                                  this 0 1 0 5 Hx Hx Hy He Hs) Hnone))).
  - exact (proj2 (proj2 (@C4_chunk_edge Z K (Example.world Example.beside)
                           this 0 1 0 5 Hx Hx Hy He Hs)
                    Example.west Hsome Hfit Hsame)).
Defined.

Lemma C5_floor_and_top_witness :
  let K := Example.consts in
  let W := Example.world Example.alone in
  let floor := Example.renderer Example.pair in
  let roof := Example.upper Example.top in
  (0 <= 0 /\ idFits (cellAt K floor 0 0 1)
   /\ 31 >= SIZE_Y K - 1
   /\ 0 <= 5 < SIZE /\ by0 roof <= 31 <= by0 roof + SIZE - 1
   /\ blockId (cellAt K roof 5 31 5) <> 0)
  /\ ~ emitsFace (buildEvents K W floor) floor 0 0 1 3
  /\ emitsFace (buildEvents K W roof) roof 5 31 5 2.
Proof.
  intros K W floor roof.
  assert (H : 0 <= 0 /\ idFits (cellAt K floor 0 0 1)
              /\ 31 >= SIZE_Y K - 1
              /\ 0 <= 5 < SIZE /\ by0 roof <= 31 <= by0 roof + SIZE - 1
              /\ blockId (cellAt K roof 5 31 5) <> 0).
  { unfold idFits. vm_compute. repeat split; discriminate. }
  split; [exact H|].
  destruct H as (Hfloor & Hfit & Htop & Hx & Hy & Hs).
  split.
  - exact (proj2 (proj2 (proj1 (@C5_floor_and_top Z K W floor 0 0 1)
                           Hfloor Hfit))).
  - exact (proj2 (proj2 (proj2 (@C5_floor_and_top Z K W roof 5 31 5)
                           Htop)) Hx Hx Hy Hs).
Defined.

(** ** Decoding of cells and catalogue accesses *)

Section Decoding.

Variable TexCoords : Type.
Variable K : Consts.
Variable W : World TexCoords.

(** Every call of the per-face block: the lookup of the cell's own
    descriptor, the lookup of a non-empty neighbour of another type, or one
    of the three calls that emit a visible face. *)
Lemma In_addFacesFaces_inv (e : event TexCoords) this bx by_ bz data
    neighbors :
  In e (addFacesFaces K W this bx by_ bz data neighbors) ->
  e = GetBlockWithId TexCoords (blockId data)
  \/ exists n, 0 <= n < 6 /\
       ((nth (Z.to_nat n) neighbors 0 <> 0
         /\ nth (Z.to_nat n) neighbors 0 <> blockId data
         /\ e = GetBlockWithId TexCoords (nth (Z.to_nat n) neighbors 0))
        \/ (visible K W neighbors data n = true
            /\ (e = GetFaceSlot TexCoords (blockId data) bx by_ bz n
                      (metadata data) (variant data)
                \/ e = GetSlotCoords TexCoords
                         (getFaceSlot (getBlockWithId W (blockId data))
                            bx by_ bz n (metadata data) (variant data))
                \/ e = AddFace n bx (by_ - by0 this) bz
                         (faceTex W bx by_ bz n data)))).
Proof.
  unfold addFacesFaces, visible, faceTex, blockId, metadata, variant.
  intros [He|Hin]; [left; symmetry; exact He|right].
  apply in_flat_map in Hin. destruct Hin as (n & Hn & Hin).
  apply In_for_lt in Hn. exists n. split; [exact Hn|].
  cbv beta zeta in Hin |- *.
  destruct (Z.eqb_spec (nth (Z.to_nat n) neighbors 0) 0) as [E0|E0].
  - right. split; [reflexivity|].
    simpl in Hin. destruct Hin as [H|[H|[H|[]]]]; subst e; auto.
  - destruct (Z.eqb_spec (nth (Z.to_nat n) neighbors 0) (data >> 8))
      as [E1|E1]; simpl in Hin; [contradiction|].
    destruct Hin as [H|Hin]; [left; auto|].
    destruct (JS.truthy _) eqn:E2; simpl in Hin; [|contradiction].
    right. split; [reflexivity|].
    destruct Hin as [H|[H|[H|[]]]]; subst e; auto.
Qed.

(** A visible face is emitted with its three calls. *)
Lemma In_addFacesFaces_emit this bx by_ bz data neighbors n :
  0 <= n < 6 -> visible K W neighbors data n = true ->
  let l := addFacesFaces K W this bx by_ bz data neighbors in
  In (GetFaceSlot TexCoords (blockId data) bx by_ bz n (metadata data)
        (variant data)) l
  /\ In (AddFace n bx (by_ - by0 this) bz (faceTex W bx by_ bz n data)) l.
Proof.
  intros Hn Hv l. unfold l, addFacesFaces.
  assert (Hm : In n (JS.for_lt 0 6)) by (apply In_for_lt; exact Hn).
  unfold visible in Hv. cbv zeta in Hv.
  split; right; apply in_flat_map; exists n; (split; [exact Hm|]);
    cbv beta zeta;
    unfold faceTex, blockId, metadata, variant;
    (destruct (nth (Z.to_nat n) neighbors 0 =? 0); [simpl; auto|]);
    simpl in Hv;
    (destruct (nth (Z.to_nat n) neighbors 0 =? data >> 8);
     [discriminate|]);
    simpl in Hv |- *; rewrite Hv; simpl; auto.
Qed.

Lemma In_addFacesCell_solid (e : event TexCoords) this nc bx by_ bz :
  In e (addFacesCell K W this nc bx by_ bz) ->
  blockId (cellAt K this bx by_ bz) <> 0
  /\ In e (addFacesFaces K W this bx by_ bz (cellAt K this bx by_ bz)
             (addFacesNeighbors K W this nc bx by_ bz
                (bx + bz * STRIDE_Z K + by_ * STRIDE_Y K)
                (cellAt K this bx by_ bz))).
Proof.
  unfold addFacesCell, blockId, cellAt.
  destruct (Z.eqb_spec
    (JS.read (blockData (chunk this))
       (bx + bz * STRIDE_Z K + by_ * STRIDE_Y K) >> 8) 0) as [E|E].
  - intros [].
  - intros H. split; assumption.
Qed.

(** The fields of a packed cell, as arithmetic on a 32-bit value. *)
Lemma decode_arith data :
  - 2 ^ 31 <= data < 2 ^ 31 ->
  blockId data = data / 2 ^ 8
  /\ metadata data = (data / 2 ^ 16) mod 2 ^ 8
  /\ variant data = data mod 2 ^ 16.
Proof.
  intros Hd.
  assert (Hi : forall v, - 2 ^ 31 <= v < 2 ^ 31 -> JS.toInt32 v = v).
  { intros v Hv. unfold JS.toInt32. rewrite Z.mod_small; lia. }
  unfold blockId, metadata, variant, JS.band, JS.shr.
  rewrite (Hi data Hd), (Hi 255), (Hi 65535) by lia.
  rewrite !Z.shiftr_div_pow2 by lia.
  assert (H16 : - 2 ^ 31 <= data / 2 ^ 16 < 2 ^ 31).
  { split.
    - apply Z.div_le_lower_bound; lia.
    - apply Z.div_lt_upper_bound; lia. }
  rewrite (Hi _ H16).
  change 255 with (Z.ones 8). change 65535 with (Z.ones 16).
  rewrite !Z.land_ones by lia. auto.
Qed.

Lemma addFacesCell_solid this nc bx by_ bz :
  blockId (cellAt K this bx by_ bz) <> 0 ->
  addFacesCell K W this nc bx by_ bz
  = addFacesFaces K W this bx by_ bz (cellAt K this bx by_ bz)
      (addFacesNeighbors K W this nc bx by_ bz
         (bx + bz * STRIDE_Z K + by_ * STRIDE_Y K)
         (cellAt K this bx by_ bz)).
Proof.
  unfold addFacesCell, blockId, cellAt. intros H.
  apply Z.eqb_neq in H. rewrite H. reflexivity.
Qed.

(** C6.  In both passes (the trace of [build] is the interior pass followed
    by the boundary pass) every [getFaceSlot] call is made on the
    descriptor of id [data >> 8] with metadata [(data >> 16) & 0xFF] and
    variant [data & 0xFFFF], [data] being the cell at the call's position;
    every emitted face carries the texture coordinates of exactly that
    call, which is in the trace together with the lookup of the
    descriptor.  On a 32-bit cell the three fields are the bits from 8 up,
    bits 16 to 23 and bits 0 to 15.  The neighbour id read for a face is
    the neighbour cell's [data >> 8], when that fits the scratch array. *)
Theorem C6_cell_decoding this :
  buildEvents K W this = buildInterior K W this ++ buildBoundary K W this
  /\ (forall id x y z n m v,
        In (GetFaceSlot TexCoords id x y z n m v) (buildEvents K W this) ->
        let data := cellAt K this x y z in
        id = data >> 8 /\ m = (data >> 16) & 255 /\ v = data & 65535)
  /\ (forall n x y z tc,
        In (AddFace n x y z tc) (buildEvents K W this) ->
        let data := cellAt K this x (y + by0 this) z in
        tc = getSlotCoords W
               (getFaceSlot (getBlockWithId W (data >> 8)) x (y + by0 this)
                  z n ((data >> 16) & 255) (data & 65535))
        /\ In (GetFaceSlot TexCoords (data >> 8) x (y + by0 this) z n
                 ((data >> 16) & 255) (data & 65535))
             (buildEvents K W this)
        /\ In (GetBlockWithId TexCoords (data >> 8)) (buildEvents K W this))
  /\ (forall data,
        - 2 ^ 31 <= data < 2 ^ 31 ->
        data >> 8 = data / 2 ^ 8
        /\ (data >> 16) & 255 = (data / 2 ^ 16) mod 2 ^ 8
        /\ data & 65535 = data mod 2 ^ 16)
  /\ (forall bx by_ bz n,
        0 <= bx < SIZE -> 0 <= bz < SIZE -> 0 <= n < 6 ->
        idFits (neighborCell K W this bx by_ bz n) ->
        nth (Z.to_nat n)
          (addFacesNeighbors K W this (fetchNeighborChunks K W this)
             bx by_ bz (bx + bz * STRIDE_Z K + by_ * STRIDE_Y K)
             (cellAt K this bx by_ bz)) 0
        = neighborCell K W this bx by_ bz n >> 8).
Proof.
  split; [reflexivity|]. split; [|split; [|split]].
  - intros id x y z n m v H. apply In_buildEvents in H.
    destruct H as (bx & by_ & bz & _ & H).
    apply In_addFacesCell_solid in H. destruct H as [_ H].
    apply In_addFacesFaces_inv in H.
    destruct H as [H|(n' & _ & [(_ & _ & H)|(_ & [H|[H|H]])])];
      try discriminate.
    inversion H; subst. cbv zeta. auto.
  - intros n x y z tc H. apply In_AddFace_buildEvents in H.
    destruct H as (Hr & H).
    pose proof H as H'. apply In_AddFace_addFacesCell in H'.
    destruct H' as (Hs & Hn & _ & _ & _ & Htc & Hv).
    cbv zeta. split; [exact Htc|].
    assert (Hcell : forall e,
      In e (addFacesCell K W this (fetchNeighborChunks K W this)
              x (y + by0 this) z) ->
      In e (buildEvents K W this)).
    { intros e He. apply In_buildEvents.
      exists x, (y + by0 this), z. split; [lia|exact He]. }
    split; apply Hcell;
      rewrite (@addFacesCell_solid this (fetchNeighborChunks K W this)
                 x (y + by0 this) z Hs).
    + apply (@In_addFacesFaces_emit this x (y + by0 this) z _ _ n Hn Hv).
    + left. reflexivity.
  - intros data Hd. apply decode_arith. exact Hd.
  - intros bx by_ bz n Hx Hz Hn Hfit.
    rewrite (nth_addFacesNeighbors K W this by_ Hx Hz Hn).
    apply (toUint16_fits Hfit).
Qed.

(** C9.  A cell of id 0 makes neither pass do anything: no call at all, so
    no face and no catalogue access; and nowhere in a [build] is
    [getBlockWithId] called with id 0. *)
Theorem C9_air_is_skipped this :
  (forall nc bx by_ bz,
     blockId (cellAt K this bx by_ bz) = 0 ->
     buildCell K W this bx by_ bz = []
     /\ addFacesCell K W this nc bx by_ bz = []
     /\ (forall n, ~ emitsFace (buildEvents K W this) this bx by_ bz n))
  /\ ~ In (GetBlockWithId TexCoords 0) (buildEvents K W this)
  /\ ~ In (GetBlockWithId TexCoords 0) (snd (build K W this)).
Proof.
  assert (Hno : ~ In (GetBlockWithId TexCoords 0) (buildEvents K W this)).
  { intros H. apply In_buildEvents in H.
    destruct H as (bx & by_ & bz & _ & H).
    apply In_addFacesCell_solid in H. destruct H as [Hs H].
    apply In_addFacesFaces_inv in H.
    destruct H as [H|(n & _ & [(Hnz & _ & H)|(_ & [H|[H|H]])])];
      try discriminate.
    - inversion H as [H0]. apply Hs. symmetry. exact H0.
    - inversion H as [H0]. apply Hnz. symmetry. exact H0. }
  split; [|split].
  - intros nc bx by_ bz H0. split; [|split].
    + unfold buildCell. unfold blockId, cellAt in H0. rewrite H0.
      reflexivity.
    + unfold addFacesCell. unfold blockId, cellAt in H0. rewrite H0.
      reflexivity.
    + intros n (tc & H). apply In_AddFace_buildEvents in H.
      destruct H as (_ & H).
      replace (by_ - by0 this + by0 this) with by_ in H by lia.
      apply In_AddFace_addFacesCell in H. destruct H as [Hs _].
      apply Hs. exact H0.
  - exact Hno.
  - unfold build. cbn [snd]. rewrite in_app_iff.
    intros [H|[H|[]]]; [exact (Hno H)|discriminate].
Qed.

End Decoding.

Lemma C6_cell_decoding_witness :
  let K := Example.consts in
  let W := Example.world Example.alone in
  let this := Example.renderer Example.single in
  (In (AddFace 0 5 5 5 6) (buildEvents K W this)
   /\ - 2 ^ 31 <= 256 < 2 ^ 31)
  /\ In (GetFaceSlot Z 1 5 5 5 0 0 256) (buildEvents K W this)
  /\ 256 >> 8 = 1.
Proof.
  intros K W this.
  assert (H : In (AddFace 0 5 5 5 6) (buildEvents K W this)
              /\ - 2 ^ 31 <= 256 < 2 ^ 31).
  { split; [vm_compute; auto 10|lia]. }
  split; [exact H|]. destruct H as [Hin Hr]. split.
  - exact (proj1 (proj2 (proj1 (proj2 (proj2
             (@C6_cell_decoding Z K W this))) 0 5 5 5 6 Hin))).
  - exact (proj1 (proj1 (proj2 (proj2 (proj2
             (@C6_cell_decoding Z K W this)))) 256 Hr)).
Defined.

Lemma C9_air_is_skipped_witness :
  let K := Example.consts in
  let W := Example.world Example.alone in
  let this := Example.renderer Example.single in
  blockId (cellAt K this 4 5 5) = 0
  /\ buildCell K W this 4 5 5 = []
  /\ addFacesCell K W this [None; None; None; None] 4 5 5 = [].
Proof.
  intros K W this.
  assert (H : blockId (cellAt K this 4 5 5) = 0) by reflexivity.
  split; [exact H|].
  pose proof (proj1 (@C9_air_is_skipped Z K W this)
                [None; None; None; None] 4 5 5 H) as (H1 & H2 & _).
  split; [exact H1|exact H2].
Defined.

(** ** Life cycle *)

Section Lifecycle.

Variable TexCoords : Type.
Variable K : Consts.
Variable W : World TexCoords.

Lemma total_buildAll (rounds : list (World TexCoords * list Z)) this :
  total (snd (buildAll K rounds this))
  = estimatedSize (fst (buildAll K rounds this)) - estimatedSize this.
Proof.
  revert this. induction rounds as [|[W' data] rest IH]; intros this.
  - simpl. lia.
  - cbn [buildAll].
    assert (Hd : snd (fst (build K W' (withBlockData this data)))
                 = estimatedSize (fst (fst (build K W'
                                              (withBlockData this data))))
                   - estimatedSize this) by reflexivity.
    destruct (build K W' (withBlockData this data)) as [[s d] evs].
    cbn [fst snd] in Hd. specialize (IH s).
    destruct (buildAll K rest s) as [s' deltas].
    cbn [fst snd] in IH |- *. unfold total in IH |- *.
    cbn [fold_right]. rewrite IH, Hd. lia.
Qed.

(** C7.  [build] leaves in [estimatedSize] the byte count reported by
    [finish] for the buffer it now holds and returns the new
    [estimatedSize] minus the old one; over consecutive builds the deltas
    sum up to the final [estimatedSize] minus the initial one, hence to the
    final [estimatedSize] for a renderer that starts at 0 (as a new or a
    discarded one does); [discard] resets [estimatedSize] to 0 and drops the
    buffer; and, [finish] reporting the size of the buffer it returns,
    every method keeps [estimatedSize] equal to the size of the buffer
    held. *)
Theorem C7_size_accounting this :
  (let results := finish W (facesOf (buildEvents K W this)) (faceBuffer_ this) in
   let s := fst (fst (build K W this)) in
   faceBuffer_ s = buffer results
   /\ estimatedSize s = bytesUsed results
   /\ snd (fst (build K W this)) = estimatedSize s - estimatedSize this)
  /\ (forall rounds : list (World TexCoords * list Z),
        total (snd (buildAll K rounds this))
        = estimatedSize (fst (buildAll K rounds this)) - estimatedSize this)
  /\ (forall rounds : list (World TexCoords * list Z),
        estimatedSize this = 0 ->
        total (snd (buildAll K rounds this))
        = estimatedSize (fst (buildAll K rounds this)))
  /\ (estimatedSize (fst (discard TexCoords this)) = 0
      /\ faceBuffer_ (fst (discard TexCoords this)) = None
      /\ sizeInvariant (fst (discard TexCoords this)))
  /\ (forall nextId bbox c by_,
        estimatedSize (create K nextId bbox c by_) = 0
        /\ sizeInvariant (create K nextId bbox c by_))
  /\ (finishReportsSize W ->
      forall c, sizeInvariant this -> sizeInvariant (step K W this c)).
Proof.
  split; [|split; [|split; [|split; [|split]]]].
  - cbv zeta. unfold build. cbn. auto.
  - intros rounds. apply total_buildAll.
  - intros rounds H0. rewrite total_buildAll, H0. lia.
  - unfold sizeInvariant, discard.
    destruct (debugLineBuffer this); cbn; auto.
  - intros. unfold sizeInvariant. cbn. auto.
  - intros Hfin c Hinv. unfold sizeInvariant in *.
    destruct c; cbn [step].
    + exact Hinv.
    + unfold build. cbn. apply Hfin.
    + unfold discard. destruct (debugLineBuffer this); reflexivity.
    + unfold restore, setDebugVisuals.
      destruct (debugVisuals_ this) eqn:Ed; cbn; exact Hinv.
    + unfold setDebugVisuals.
      destruct (Bool.eqb (debugVisuals_ this) value); [exact Hinv|].
      destruct value; exact Hinv.
    + unfold disposeInternal, setDebugVisuals.
      destruct (Bool.eqb (debugVisuals_ this) false); exact Hinv.
    + exact Hinv.
    + unfold render. destruct (JS.truthy _); exact Hinv.
    + unfold renderDebug. destruct (debugLineBuffer this); exact Hinv.
Qed.

(** C8.  [discard] deletes the face buffer, disposes of the debug line
    buffer when there is one, and leaves no buffer, an element count of 0
    and an [estimatedSize] of 0, the other fields as they were; a second
    [discard] leaves the state as it is and releases no buffer (it passes
    null to [deleteBuffer]); [render] after [discard] makes no call and
    leaves the state as it is, as [render] and [renderDebug] always do. *)
Theorem C8_discard this frame viewport :
  let s := fst (discard TexCoords this) in
  (faceBuffer_ s = None /\ faceBufferElementCount_ s = 0
   /\ estimatedSize s = 0 /\ debugLineBuffer s = None)
  /\ (In (GlDeleteBuffer TexCoords (faceBuffer_ this))
        (snd (discard TexCoords this))
      /\ match debugLineBuffer this with
         | Some lb => In (Dispose TexCoords (Some lb))
                        (snd (discard TexCoords this))
         | None => True
         end)
  /\ (id s = id this /\ chunk s = chunk this /\ by0 s = by0 this
      /\ worldMatrix s = worldMatrix this
      /\ centerCoordinates s = centerCoordinates this
      /\ boundingBox s = boundingBox this
      /\ boundingSphere s = boundingSphere this
      /\ dirty s = dirty this /\ sortKey s = sortKey this
      /\ lastFrameInViewport s = lastFrameInViewport this
      /\ queuedForBuild s = queuedForBuild this
      /\ queuePriority s = queuePriority this
      /\ debugVisuals_ s = debugVisuals_ this)
  /\ (fst (discard TexCoords s) = s
      /\ snd (discard TexCoords s)
         = [GlDeleteBuffer TexCoords None; BaseDiscard TexCoords])
  /\ render TexCoords s frame viewport = (s, [])
  /\ fst (render TexCoords this frame viewport) = this
  /\ fst (renderDebug TexCoords this frame viewport) = this.
Proof.
  cbv zeta. unfold discard, render, renderDebug.
  destruct (debugLineBuffer this) eqn:Ed; cbn; rewrite ?Ed; cbn;
    repeat split; auto;
    destruct (JS.truthy (faceBufferElementCount_ this)); reflexivity.
Qed.

(** C10.  [invalidate] sets the dirty flag and changes no other field; a
    second call changes nothing, and so any number of calls, at least one,
    amounts to one call. *)
Theorem C10_invalidate this (n : nat) :
  let s := invalidate this in
  dirty s = true
  /\ (id s = id this /\ chunk s = chunk this /\ by0 s = by0 this
      /\ worldMatrix s = worldMatrix this
      /\ centerCoordinates s = centerCoordinates this
      /\ boundingBox s = boundingBox this
      /\ boundingSphere s = boundingSphere this
      /\ faceBuffer_ s = faceBuffer_ this
      /\ faceBufferElementCount_ s = faceBufferElementCount_ this
      /\ estimatedSize s = estimatedSize this
      /\ sortKey s = sortKey this
      /\ lastFrameInViewport s = lastFrameInViewport this
      /\ queuedForBuild s = queuedForBuild this
      /\ queuePriority s = queuePriority this
      /\ debugVisuals_ s = debugVisuals_ this
      /\ debugLineBuffer s = debugLineBuffer this)
  /\ invalidate s = s
  /\ Nat.iter (S n) invalidate this = s.
Proof.
  cbv zeta. split; [reflexivity|]. split; [repeat split|]. split.
  - reflexivity.
  - induction n as [|n IH]; [reflexivity|].
    change (Nat.iter (S (S n)) invalidate this)
      with (invalidate (Nat.iter (S n) invalidate this)).
    rewrite IH. reflexivity.
Qed.

End Lifecycle.

Lemma finishReportsSize_Example view :
  finishReportsSize (Example.world view).
Proof.
  intros faces existing. unfold Example.world, Example.pack. cbn.
  destruct (Z.of_nat (length faces) =? 0) eqn:E; cbn; [|reflexivity].
  apply Z.eqb_eq in E. rewrite E. reflexivity.
Qed.

Lemma C7_size_accounting_witness :
  let K := Example.consts in
  let W := Example.world Example.alone in
  let this := Example.renderer Example.single in
  let rounds := [(W, blockData Example.single); (W, blockData Example.pair)] in
  (estimatedSize this = 0 /\ finishReportsSize W /\ sizeInvariant this)
  /\ total (snd (buildAll K rounds this))
     = estimatedSize (fst (buildAll K rounds this))
  /\ sizeInvariant (step K W this (CallBuild)).
Proof.
  intros K W this rounds.
  assert (H : estimatedSize this = 0 /\ finishReportsSize W
              /\ sizeInvariant this).
  { split; [reflexivity|]. split; [apply finishReportsSize_Example|].
    reflexivity. }
  split; [exact H|]. destruct H as (H0 & Hfin & Hinv). split.
  - exact (proj1 (proj2 (proj2 (@C7_size_accounting Z K W this)))
             rounds H0).
  - exact (proj2 (proj2 (proj2 (proj2 (proj2
             (@C7_size_accounting Z K W this))))) Hfin CallBuild Hinv).
Defined.

(** ** Further properties of the mesher *)

Lemma flat_map_nil_In (A B : Type) (f : A -> list B) (l : list A) :
  (forall a, In a l -> f a = []) -> flat_map f l = [].
Proof.
  induction l as [|a l IH]; intros H; simpl; [reflexivity|].
  rewrite (H a) by (left; reflexivity).
  apply IH. intros; apply H; right; assumption.
Qed.

Lemma length_count_from lo n : length (JS.count_from lo n) = n.
Proof.
  revert lo; induction n as [|n IH]; intros lo; simpl; [|rewrite IH];
    reflexivity.
Qed.

Lemma length_flat_map_le (A B : Type) (f : A -> list B) (l : list A) (c : Z) :
  (forall a, In a l -> Z.of_nat (length (f a)) <= c) ->
  Z.of_nat (length (flat_map f l)) <= c * Z.of_nat (length l).
Proof.
  induction l as [|a l IH]; intros H; simpl flat_map; simpl length; [lia|].
  rewrite length_app, Nat2Z.inj_add, Nat2Z.inj_succ.
  assert (Ha := H a (or_introl eq_refl)).
  assert (Hl : Z.of_nat (length (flat_map f l)) <= c * Z.of_nat (length l)).
  { apply IH. intros; apply H; right; assumption. }
  lia.
Qed.

Lemma StronglySorted_NoDup_map (A B : Type) (R : A -> A -> Prop)
    (key : A -> B) (l : list A) :
  (forall a b, R a b -> key a <> key b) ->
  StronglySorted R l -> NoDup (map key l).
Proof.
  intros HR. induction 1 as [|a l Hl IH Ha]; simpl; constructor.
  - intros Hin. apply in_map_iff in Hin. destruct Hin as (b & Hk & Hb).
    rewrite Forall_forall in Ha. apply (HR a b (Ha b Hb)). symmetry. exact Hk.
  - exact IH.
Qed.

Section MesherExtras.

Variable TexCoords : Type.
Variable K : Consts.
Variable W : World TexCoords.

(** X1.  When every cell of the segment is air, neither pass makes any
    call: [build] goes straight to [finish] with an empty face list and the
    buffer held so far, and takes its buffer, element count and size from
    that. *)
Theorem X1_empty_segment this :
  (forall bx by_ bz,
     0 <= bx < SIZE -> 0 <= bz < SIZE ->
     by0 this <= by_ <= by0 this + SIZE - 1 ->
     blockId (cellAt K this bx by_ bz) = 0) ->
  let results := finish W [] (faceBuffer_ this) in
  buildEvents K W this = []
  /\ snd (build K W this) = [Finish TexCoords (faceBuffer_ this)]
  /\ faceBuffer_ (fst (fst (build K W this))) = buffer results
  /\ faceBufferElementCount_ (fst (fst (build K W this)))
     = elementCount results
  /\ snd (fst (build K W this)) = bytesUsed results - estimatedSize this.
Proof.
  intros Hair results.
  assert (Hcell : forall bx by_ bz,
    0 <= bx < SIZE -> 0 <= bz < SIZE ->
    by0 this <= by_ <= by0 this + SIZE - 1 ->
    addFacesCell K W this (fetchNeighborChunks K W this) bx by_ bz = []).
  { intros bx by_ bz Hx Hz Hy. unfold addFacesCell.
    specialize (Hair bx by_ bz Hx Hz Hy). unfold blockId, cellAt in Hair.
    rewrite Hair. reflexivity. }
  assert (Hcol : forall bx bz,
    0 <= bx < SIZE -> 0 <= bz < SIZE ->
    addFaces_ K W this bx (by0 this) (by0 this + SIZE - 1) bz
      (fetchNeighborChunks K W this) = []).
  { intros bx bz Hx Hz. unfold addFaces_. apply flat_map_nil_In.
    intros by_ Hy. apply In_for_le in Hy. apply Hcell; assumption. }
  assert (Hev : buildEvents K W this = []).
  { unfold buildEvents.
    rewrite (buildInterior_addFacesCell K W this
               (fetchNeighborChunks K W this)).
    unfold buildBoundary.
    repeat (rewrite flat_map_nil_In; [rewrite ?app_nil_l|]);
      try reflexivity;
      intros v Hv;
      try (apply In_for_lt in Hv; apply Hcol; unfold SIZE in *; lia).
    apply In_for_le in Hv. apply flat_map_nil_In. intros bz Hz.
    apply In_for_lt in Hz. apply flat_map_nil_In. intros bx Hx.
    apply In_for_lt in Hx. apply Hcell; unfold SIZE in *; lia. }
  split; [exact Hev|]. unfold build. rewrite Hev. unfold results.
  cbn. auto.
Qed.

(** X2.  The face rule without any assumption on ids: for a solid cell of
    the segment a quad is emitted in direction [n] if and only if the
    neighbour's id, cut to the 16 bits the scratch array keeps, is 0, or
    differs from the cell's own (uncut) id and names a block whose material
    has the MERGE flag.  So a neighbour whose id is a multiple of 65536
    counts as empty. *)
Theorem X2_face_rule_16_bits this bx by_ bz n :
  0 <= bx < SIZE -> 0 <= bz < SIZE ->
  by0 this <= by_ <= by0 this + SIZE - 1 ->
  0 <= n < 6 ->
  blockId (cellAt K this bx by_ bz) <> 0 ->
  let cid := blockId (cellAt K this bx by_ bz) in
  let nid := blockId (neighborCell K W this bx by_ bz n) in
  (emitsFace (buildEvents K W this) this bx by_ bz n
   <-> faceRule K W cid (nid mod 2 ^ 16))
  /\ (nid mod 2 ^ 16 = 0 ->
      emitsFace (buildEvents K W this) this bx by_ bz n).
Proof.
  intros Hx Hz Hy Hn Hs cid nid.
  pose proof (@emitsFace_buildEvents TexCoords K W this bx by_ bz n
                Hx Hz Hy Hn Hs) as H.
  split; [exact H|]. intros H0. apply H. left. exact H0.
Qed.

(** X3.  Every quad [build] hands to the block builder has a direction in
    0..5 and a position inside the segment, 0..15 on each axis, and belongs
    to a solid cell. *)
Theorem X3_faces_in_segment this :
  Forall (fun f =>
            0 <= face_n f < 6
            /\ 0 <= face_x f < SIZE /\ 0 <= face_y f < SIZE
            /\ 0 <= face_z f < SIZE
            /\ blockId (cellAt K this (face_x f) (face_y f + by0 this)
                          (face_z f)) <> 0)
    (facesOf (buildEvents K W this)).
Proof.
  apply Forall_forall. intros f Hf.
  apply In_facesOf, In_AddFace_buildEvents in Hf. destruct Hf as (Hr & Hf).
  apply In_AddFace_addFacesCell in Hf. unfold SIZE in *.
  repeat split; try tauto; lia.
Qed.

Lemma In_facesOf_buildInterior f this :
  In f (facesOf (buildInterior K W this)) ->
  1 <= face_x f < SIZE - 1 /\ 1 <= face_z f < SIZE - 1.
Proof.
  intros H. apply In_facesOf, In_buildInterior_addFacesCell in H.
  destruct H as (bx & by_ & bz & Hr & H).
  apply In_AddFace_addFacesCell in H.
  destruct H as (_ & _ & Hx & _ & Hz & _). rewrite Hx, Hz. tauto.
Qed.

Lemma In_facesOf_buildBoundary f this :
  In f (facesOf (buildBoundary K W this)) ->
  onRing (face_x f) (face_z f).
Proof.
  intros H. apply In_facesOf, In_buildBoundary in H.
  destruct H as (bx & by_ & bz & Hr & H).
  apply In_AddFace_addFacesCell in H.
  destruct H as (_ & _ & Hx & _ & Hz & _). rewrite Hx, Hz. tauto.
Qed.

Lemma length_facesOf_addFacesCell this nc bx by_ bz :
  Z.of_nat (length (facesOf (addFacesCell K W this nc bx by_ bz))) <= 6.
Proof.
  unfold addFacesCell. destruct (_ =? 0); [simpl; lia|].
  rewrite facesOf_addFacesFaces.
  etransitivity; [apply length_flat_map_le with (c := 1)|].
  - intros n _. destruct (visible _ _ _ _ _); simpl; lia.
  - simpl. lia.
Qed.

Lemma length_for_le_segment lo :
  Z.of_nat (length (JS.for_le lo (lo + SIZE - 1))) = SIZE.
Proof.
  unfold JS.for_le, JS.for_lt. rewrite length_count_from.
  replace (lo + SIZE - 1 + 1 - lo) with SIZE by lia. reflexivity.
Qed.

Lemma length_facesOf_addFaces_ this bx bz :
  Z.of_nat (length (facesOf
    (addFaces_ K W this bx (by0 this) (by0 this + SIZE - 1) bz
       (fetchNeighborChunks K W this)))) <= 96.
Proof.
  unfold addFaces_. rewrite facesOf_flat_map.
  etransitivity; [apply length_flat_map_le with (c := 6)|].
  - intros by_ _. apply length_facesOf_addFacesCell.
  - rewrite length_for_le_segment. unfold SIZE. lia.
Qed.

(** X4.  No quad is emitted twice: the faces of a [build] have pairwise
    different (direction, position) keys; and there are at most
    6 * 16 * 16 * 16 = 24576 of them. *)
Theorem X4_faces_distinct_and_bounded this :
  NoDup (map (@faceKey TexCoords) (facesOf (buildEvents K W this)))
  /\ Z.of_nat (length (facesOf (buildEvents K W this))) <= 24576.
Proof.
  unfold buildEvents. rewrite facesOf_app. split.
  - rewrite map_app. apply NoDup_app.
    + apply (StronglySorted_NoDup_map
               (R := fun f g => lexLt (interiorKey f) (interiorKey g))).
      * intros f g Hlt E. unfold faceKey in E. inversion E as [[En Ex Ey Ez]].
        unfold interiorKey in Hlt. rewrite En, Ex, Ey, Ez in Hlt.
        simpl in Hlt. lia.
      * apply buildInterior_sorted.
    + apply (StronglySorted_NoDup_map
               (R := fun f g => lexLt (boundaryKey f) (boundaryKey g))).
      * intros f g Hlt E. unfold faceKey in E. inversion E as [[En Ex Ey Ez]].
        unfold boundaryKey in Hlt. rewrite En, Ex, Ey, Ez in Hlt.
        simpl in Hlt. lia.
      * apply buildBoundary_sorted.
    + intros k Hi Hb. apply in_map_iff in Hi, Hb.
      destruct Hi as (f & Ef & Hf). destruct Hb as (g & Eg & Hg).
      apply In_facesOf_buildInterior in Hf.
      apply In_facesOf_buildBoundary in Hg.
      rewrite <- Eg in Ef. unfold faceKey in Ef.
      inversion Ef as [[En Ex Ey Ez]]. rewrite <- Ex, <- Ez in Hg.
      unfold onRing, SIZE in *. lia.
  - rewrite length_app, Nat2Z.inj_add.
    assert (Hi : Z.of_nat (length (facesOf (buildInterior K W this)))
                 <= 18816).
    { rewrite (buildInterior_addFacesCell K W this
                 (fetchNeighborChunks K W this)).
      rewrite facesOf_flat_map.
      etransitivity; [apply length_flat_map_le with (c := 1176)|].
      - intros by_ _. rewrite facesOf_flat_map.
        etransitivity; [apply length_flat_map_le with (c := 84)|].
        + intros bz _. rewrite facesOf_flat_map.
          etransitivity; [apply length_flat_map_le with (c := 6)|].
          * intros bx _. apply length_facesOf_addFacesCell.
          * simpl. lia.
        + simpl. lia.
      - rewrite length_for_le_segment. unfold SIZE. lia. }
    assert (Hr : forall (col : Z -> list (event TexCoords)) lo hi,
      (forall v, Z.of_nat (length (facesOf (col v))) <= 96) ->
      Z.of_nat (length (JS.for_lt lo hi)) = 15 ->
      Z.of_nat (length (facesOf (flat_map col (JS.for_lt lo hi)))) <= 1440).
    { intros col lo hi Hc Hl. rewrite facesOf_flat_map.
      etransitivity; [apply length_flat_map_le with (c := 96)|].
      - intros v _. apply Hc.
      - rewrite Hl. lia. }
    unfold buildBoundary. rewrite !facesOf_app, !length_app, !Nat2Z.inj_add.
    pose proof (Hr (fun bz => addFaces_ K W this 0 (by0 this)
                                (by0 this + SIZE - 1) bz
                                (fetchNeighborChunks K W this))
                  0 (SIZE - 1)
                  (fun v => length_facesOf_addFaces_ this 0 v) eq_refl).
    pose proof (Hr (fun bx => addFaces_ K W this bx (by0 this)
                                (by0 this + SIZE - 1) (SIZE - 1)
                                (fetchNeighborChunks K W this))
                  0 (SIZE - 1)
                  (fun v => length_facesOf_addFaces_ this v (SIZE - 1))
                  eq_refl).
    pose proof (Hr (fun bz => addFaces_ K W this (SIZE - 1) (by0 this)
                                (by0 this + SIZE - 1) bz
                                (fetchNeighborChunks K W this))
                  1 SIZE
                  (fun v => length_facesOf_addFaces_ this (SIZE - 1) v)
                  eq_refl).
    pose proof (Hr (fun bx => addFaces_ K W this bx (by0 this)
                                (by0 this + SIZE - 1) 0
                                (fetchNeighborChunks K W this))
                  1 SIZE
                  (fun v => length_facesOf_addFaces_ this v 0) eq_refl).
    lia.
Qed.

Lemma mesherCall_buildEvents e this :
  In e (buildEvents K W this) -> mesherCall e.
Proof.
  intros H. apply In_buildEvents in H.
  destruct H as (bx & by_ & bz & _ & H).
  apply In_addFacesCell_solid in H. destruct H as [_ H].
  apply In_addFacesFaces_inv in H.
  destruct H as [H|(n & _ & [(_ & _ & H)|(_ & [H|[H|H]])])];
    subst e; exact I.
Qed.

Lemma liveLineBuffers_mesher (evs : list (event TexCoords)) :
  (forall e, In e evs -> mesherCall e) -> liveLineBuffers evs = 0.
Proof.
  induction evs as [|e evs IH]; intros H; [reflexivity|].
  cbn [liveLineBuffers fold_right]. fold (liveLineBuffers evs).
  rewrite IH by (intros; apply H; right; assumption).
  specialize (H e (or_introl eq_refl)).
  destruct e; simpl in H; try contradiction; reflexivity.
Qed.

Lemma liveLineBuffers_app (l1 l2 : list (event TexCoords)) :
  liveLineBuffers (l1 ++ l2) = liveLineBuffers l1 + liveLineBuffers l2.
Proof.
  induction l1 as [|e l1 IH]; [reflexivity|].
  cbn [app liveLineBuffers fold_right].
  fold (liveLineBuffers (l1 ++ l2)). fold (liveLineBuffers l1).
  rewrite IH. lia.
Qed.

(** X5.  [build] itself deletes nothing and draws nothing: its trace is
    calls on the block set, descriptors, atlas and [addFace], followed by
    one [finish] that is handed the buffer held so far; it creates and
    disposes of no line buffer. *)
Theorem X5_build_trace this :
  Forall (@mesherCall TexCoords) (buildEvents K W this)
  /\ snd (build K W this)
     = buildEvents K W this ++ [Finish TexCoords (faceBuffer_ this)]
  /\ Forall (fun e => touchesFaceBuffer e ->
                      e = Finish TexCoords (faceBuffer_ this))
       (snd (build K W this))
  /\ liveLineBuffers (snd (build K W this)) = 0.
Proof.
  split; [|split; [|split]].
  - apply Forall_forall. intros e. apply mesherCall_buildEvents.
  - reflexivity.
  - apply Forall_forall. intros e He Ht. unfold build in He. cbn [snd] in He.
    apply in_app_iff in He. destruct He as [He|[He|[]]].
    + apply mesherCall_buildEvents in He.
      destruct e; simpl in He, Ht; contradiction.
    + symmetry. exact He.
  - unfold build. cbn [snd]. rewrite liveLineBuffers_app.
    rewrite liveLineBuffers_mesher
      by (intros e He; exact (@mesherCall_buildEvents e this He)).
    reflexivity.
Qed.

End MesherExtras.

Lemma neighborCell_inside (T : Type) (K : Consts) (W1 W2 : World T)
    this bx by_ bz n :
  0 <= bx < SIZE -> 0 <= bz < SIZE -> 0 <= n < 6 ->
  ~ acrossEdge bx bz n ->
  neighborCell K W1 this bx by_ bz n = neighborCell K W2 this bx by_ bz n.
Proof.
  intros Hx Hz Hn He. unfold acrossEdge, SIZE in *.
  assert (Hc : n = 0 \/ n = 1 \/ n = 2 \/ n = 3 \/ n = 4 \/ n = 5) by lia.
  unfold neighborCell, SIZE.
  destruct Hc as [->|[->|[->|[->|[->| ->]]]]]; try reflexivity.
  - destruct (Z.ltb_spec (bz + 1) 16); [reflexivity|lia].
  - destruct (Z.leb_spec 0 (bz - 1)); [reflexivity|lia].
  - destruct (Z.ltb_spec (bx + 1) 16); [reflexivity|lia].
  - destruct (Z.leb_spec 0 (bx - 1)); [reflexivity|lia].
Qed.

Lemma emitsFace_same_block_set (T : Type) (K : Consts) (W1 W2 : World T)
    this bx by_ bz n :
  (forall id, flags (material (getBlockWithId W1 id))
              = flags (material (getBlockWithId W2 id))) ->
  ~ acrossEdge bx bz n ->
  emitsFace (buildEvents K W1 this) this bx by_ bz n ->
  emitsFace (buildEvents K W2 this) this bx by_ bz n.
Proof.
  intros Hflags He Hem.
  destruct (@emitsFace_inv T K W1 this bx by_ bz n Hem)
    as [(Hx & Hz & Hy & Hn) Hs].
  apply (@emitsFace_buildEvents T K W1 this bx by_ bz n Hx Hz Hy Hn Hs)
    in Hem.
  apply (@emitsFace_buildEvents T K W2 this bx by_ bz n Hx Hz Hy Hn Hs).
  rewrite <- (@neighborCell_inside T K W1 W2 this bx by_ bz n Hx Hz Hn He).
  unfold faceRule, merges in *. rewrite <- Hflags. exact Hem.
Qed.

(** X6.  Loading, unloading or changing a neighbour chunk can only affect
    the faces that point out of the chunk from its edge cells: with the
    same block set, every other face is emitted under one view and set of
    neighbour chunks if and only if it is emitted under any other. *)
Theorem X6_neighbour_chunks_only_matter_across_edges (T : Type) (K : Consts)
    (W1 W2 : World T) this bx by_ bz n :
  (forall id, flags (material (getBlockWithId W1 id))
              = flags (material (getBlockWithId W2 id))) ->
  ~ acrossEdge bx bz n ->
  (emitsFace (buildEvents K W1 this) this bx by_ bz n
   <-> emitsFace (buildEvents K W2 this) this bx by_ bz n).
Proof.
  intros Hflags He. split.
  - apply emitsFace_same_block_set; assumption.
  - apply emitsFace_same_block_set; [|assumption].
    intros id. symmetry. apply Hflags.
Qed.

Lemma X6_neighbour_chunks_only_matter_across_edges_witness :
  let K := Example.consts in
  let this := Example.renderer Example.pair in
  ((forall id,
      flags (material (getBlockWithId (Example.world Example.alone) id))
      = flags (material (getBlockWithId (Example.world Example.beside) id)))
   /\ ~ acrossEdge 0 0 4)
  /\ (emitsFace (buildEvents K (Example.world Example.alone) this) this
        0 1 0 4
      <-> emitsFace (buildEvents K (Example.world Example.beside) this) this
            0 1 0 4).
Proof.
  intros K this.
  assert (H : (forall id,
      flags (material (getBlockWithId (Example.world Example.alone) id))
      = flags (material (getBlockWithId (Example.world Example.beside) id)))
      /\ ~ acrossEdge 0 0 4).
  { split; [reflexivity|]. unfold acrossEdge, SIZE. lia. }
  split; [exact H|]. destruct H as [Hf He].
  exact (@X6_neighbour_chunks_only_matter_across_edges Z K
           (Example.world Example.alone) (Example.world Example.beside)
           this 0 1 0 4 Hf He).
Defined.

Lemma read_repeat (a : Z) (n : nat) (i : Z) :
  0 <= i < Z.of_nat n -> JS.read (repeat a n) i = a.
Proof.
  intros Hi. unfold JS.read.
  destruct (Z.ltb_spec i 0); [lia|]. apply nth_repeat_lt. lia.
Qed.

Section FilledWorld.

Variable TexCoords : Type.
Variable K : Consts.
Variable W : World TexCoords.

(** X7.  In a chunk filled with one block type [t] (an id that fits 16
    bits), next to four loaded neighbour chunks filled with the same type,
    the only faces [build] emits are the +Y faces of the chunk's top layer:
    a segment below the top segment emits nothing, while the top segment
    emits one face 2 for every cell of its last layer. *)
Theorem X7_filled_world this t :
  t <> 0 -> 0 <= t < 2 ^ 16 ->
  0 <= by0 this -> by0 this + SIZE <= SIZE_Y K ->
  (forall bx by_ bz,
     0 <= bx < SIZE -> 0 <= bz < SIZE -> 0 <= by_ < SIZE_Y K ->
     blockId (cellAt K this bx by_ bz) = t) ->
  (forall n,
     n = 0 \/ n = 1 \/ n = 4 \/ n = 5 ->
     match lateralChunk K W this n with
     | Some c => forall x y z,
                   0 <= y < SIZE_Y K -> blockId (getBlock W c x y z) = t
     | None => False
     end) ->
  (forall bx by_ bz n,
     emitsFace (buildEvents K W this) this bx by_ bz n
     <-> (0 <= bx < SIZE /\ 0 <= bz < SIZE
          /\ by0 this <= by_ <= by0 this + SIZE - 1
          /\ n = 2 /\ by_ = SIZE_Y K - 1))
  /\ (by0 this + SIZE < SIZE_Y K -> facesOf (buildEvents K W this) = []).
Proof.
  intros Ht Hfit Hlo Hhi Hfill Hlat.
  assert (Hnb : forall bx by_ bz n,
    0 <= bx < SIZE -> 0 <= bz < SIZE ->
    by0 this <= by_ <= by0 this + SIZE - 1 -> 0 <= n < 6 ->
    blockId (neighborCell K W this bx by_ bz n)
    = if (n =? 2) && (by_ =? SIZE_Y K - 1) then 0 else t).
  { intros bx by_ bz n Hx Hz Hy Hn. unfold SIZE in *.
    assert (Hc : n = 0 \/ n = 1 \/ n = 2 \/ n = 3 \/ n = 4 \/ n = 5) by lia.
    assert (Hl : forall m, m = 0 \/ m = 1 \/ m = 4 \/ m = 5 ->
      forall x y z, 0 <= y < SIZE_Y K ->
      blockId (lateralCell W (lateralChunk K W this m) x y z) = t).
    { intros m Hm x y z Hyy. specialize (Hlat m Hm). unfold lateralCell.
      destruct (lateralChunk K W this m); [apply Hlat; exact Hyy|].
      contradiction. }
    unfold neighborCell, SIZE.
    destruct Hc as [->|[->|[->|[->|[->| ->]]]]]; cbn [Z.eqb andb Pos.eqb].
    - destruct (Z.ltb_spec (bz + 1) 16).
      + apply Hfill; unfold SIZE; lia.
      + apply (Hl 0); lia.
    - destruct (Z.leb_spec 0 (bz - 1)).
      + apply Hfill; unfold SIZE; lia.
      + apply (Hl 1); lia.
    - destruct (Z.ltb_spec (by_ + 1) (SIZE_Y K)),
        (Z.eqb_spec by_ (SIZE_Y K - 1)); try lia.
      + apply Hfill; unfold SIZE; lia.
      + reflexivity.
    - destruct (Z.leb_spec 0 (by_ - 1)); apply Hfill; unfold SIZE; lia.
    - destruct (Z.ltb_spec (bx + 1) 16).
      + apply Hfill; unfold SIZE; lia.
      + apply (Hl 4); lia.
    - destruct (Z.leb_spec 0 (bx - 1)).
      + apply Hfill; unfold SIZE; lia.
      + apply (Hl 5); lia. }
  assert (Hiff : forall bx by_ bz n,
     emitsFace (buildEvents K W this) this bx by_ bz n
     <-> (0 <= bx < SIZE /\ 0 <= bz < SIZE
          /\ by0 this <= by_ <= by0 this + SIZE - 1
          /\ n = 2 /\ by_ = SIZE_Y K - 1)).
  { intros bx by_ bz n. split.
    - intros Hem.
      destruct (@emitsFace_inv TexCoords K W this bx by_ bz n Hem)
        as [(Hx & Hz & Hy & Hn) Hs].
      apply (@emitsFace_buildEvents TexCoords K W this bx by_ bz n
               Hx Hz Hy Hn Hs) in Hem.
      rewrite (Hnb bx by_ bz n Hx Hz Hy Hn) in Hem.
      rewrite (Hfill bx by_ bz Hx Hz) in Hem by (unfold SIZE in *; lia).
      destruct (Z.eqb_spec n 2), (Z.eqb_spec by_ (SIZE_Y K - 1));
        cbn [andb] in Hem; try tauto;
        unfold JS.toUint16 in Hem; rewrite Z.mod_small in Hem by lia;
        destruct Hem as [H0|[Hne _]]; contradiction.
    - intros (Hx & Hz & Hy & -> & Htop).
      assert (Hs : blockId (cellAt K this bx by_ bz) <> 0).
      { rewrite (Hfill bx by_ bz Hx Hz) by (unfold SIZE in *; lia).
        exact Ht. }
      apply (@emitsFace_buildEvents TexCoords K W this bx by_ bz 2
               Hx Hz Hy); [lia|exact Hs|].
      rewrite (Hnb bx by_ bz 2 Hx Hz Hy) by lia.
      apply Z.eqb_eq in Htop. rewrite Htop. left. reflexivity. }
  split; [exact Hiff|].
  intros Hbelow.
  destruct (facesOf (buildEvents K W this)) as [|f fs] eqn:E; [reflexivity|].
  assert (Hin : In f (facesOf (buildEvents K W this)))
    by (rewrite E; left; reflexivity).
  apply In_facesOf in Hin.
  assert (Hem : emitsFace (buildEvents K W this) this (face_x f)
                  (face_y f + by0 this) (face_z f) (face_n f)).
  { exists (face_tex f).
    replace (face_y f + by0 this - by0 this) with (face_y f) by lia.
    exact Hin. }
  apply Hiff in Hem. lia.
Qed.

End FilledWorld.

Lemma X7_filled_world_witness :
  let K := Example.consts in
  let this := Example.upper Filled.full in
  (1 <> 0 /\ 0 <= 1 < 2 ^ 16
   /\ 0 <= by0 this /\ by0 this + SIZE <= SIZE_Y K
   /\ (forall bx by_ bz,
         0 <= bx < SIZE -> 0 <= bz < SIZE -> 0 <= by_ < SIZE_Y K ->
         blockId (cellAt K this bx by_ bz) = 1)
   /\ (forall n,
         n = 0 \/ n = 1 \/ n = 4 \/ n = 5 ->
         match lateralChunk K Filled.world this n with
         | Some c => forall x y z,
                       0 <= y < SIZE_Y K ->
                       blockId (getBlock Filled.world c x y z) = 1
         | None => False
         end))
  /\ (emitsFace (buildEvents K Filled.world this) this 3 31 4 2
      <-> (0 <= 3 < SIZE /\ 0 <= 4 < SIZE
           /\ by0 this <= 31 <= by0 this + SIZE - 1
           /\ 2 = 2 /\ 31 = SIZE_Y K - 1)).
Proof.
  intros K this.
  assert (Hread : forall i, 0 <= i < 8192 ->
            blockId (JS.read (blockData Filled.full) i) = 1).
  { intros i Hi. unfold Filled.full. cbn [blockData].
    rewrite read_repeat by lia. reflexivity. }
  assert (H : 1 <> 0 /\ 0 <= 1 < 2 ^ 16
    /\ 0 <= by0 this /\ by0 this + SIZE <= SIZE_Y K
    /\ (forall bx by_ bz,
          0 <= bx < SIZE -> 0 <= bz < SIZE -> 0 <= by_ < SIZE_Y K ->
          blockId (cellAt K this bx by_ bz) = 1)
    /\ (forall n,
          n = 0 \/ n = 1 \/ n = 4 \/ n = 5 ->
          match lateralChunk K Filled.world this n with
          | Some c => forall x y z,
                        0 <= y < SIZE_Y K ->
                        blockId (getBlock Filled.world c x y z) = 1
          | None => False
          end)).
  { split; [lia|]. split; [lia|]. split; [cbn; lia|].
    split; [cbn; unfold SIZE; lia|]. split.
    - intros bx by_ bz Hx Hz Hy. unfold cellAt. apply Hread.
      cbn in Hy |- *. unfold SIZE in *. lia.
    - intros n Hn.
      assert (Hc : lateralChunk K Filled.world this n = Some Filled.full).
      { destruct Hn as [->|[->|[->| ->]]]; reflexivity. }
      rewrite Hc. intros x y z Hy. cbn [getBlock Filled.world Example.world].
      unfold Example.cellOf. apply Hread. cbn in Hy.
      pose proof (Z.mod_pos_bound x 16). pose proof (Z.mod_pos_bound z 16).
      lia. }
  split; [exact H|].
  destruct H as (Ht & Hfit & Hlo & Hhi & Hfill & Hlat).
  exact (proj1 (@X7_filled_world Z K Filled.world this 1
                  Ht Hfit Hlo Hhi Hfill Hlat) 3 31 4 2).
Defined.

(** ** Further properties of the life cycle *)

Section LifecycleExtras.

Variable TexCoords : Type.
Variable K : Consts.
Variable W : World TexCoords.

Lemma fst_run_cons this c cs :
  fst (run K W this (c :: cs)) = fst (run K W (step K W this c) cs).
Proof.
  cbn [run]. destruct (run K W (step K W this c) cs). reflexivity.
Qed.

Lemma snd_run_cons this c cs :
  snd (run K W this (c :: cs))
  = callEvents K W this c ++ snd (run K W (step K W this c) cs).
Proof.
  cbn [run]. destruct (run K W (step K W this c) cs). reflexivity.
Qed.

Lemma liveLineBuffers_build this :
  liveLineBuffers (snd (build K W this)) = 0.
Proof.
  unfold build. cbn [snd]. rewrite liveLineBuffers_app.
  rewrite liveLineBuffers_mesher
    by (intros e He; exact (@mesherCall_buildEvents TexCoords K W e this He)).
  reflexivity.
Qed.

(** X8.  After [discard] a renderer whose debug visuals are on holds no
    line buffer, and [setDebugVisuals(true)] does not bring it back (the
    flag is still set, so the call returns at once); [restore] does: it
    switches the visuals off and on again, which disposes of nothing,
    creates a new line buffer and then asks the view renderer for a
    rebuild.  [restore] always leaves the flag as it was and, when the flag
    is set, a line buffer in place. *)
Theorem X8_restore_debug_visuals this :
  debugVisuals_ this = true ->
  let d := fst (discard TexCoords this) in
  (debugLineBuffer d = None /\ debugVisuals_ d = true)
  /\ setDebugVisuals W d true = (d, [])
  /\ (debugLineBuffer (fst (restore K W d)) = Some (newLineBuffer W)
      /\ debugVisuals_ (fst (restore K W d)) = true
      /\ snd (restore K W d)
         = [BaseRestore TexCoords; Dispose TexCoords None;
            NewLineBuffer TexCoords (newLineBuffer W);
            InvalidateSegment TexCoords (chunk_x (chunk this))
              (chunk_y (chunk this) + by0 this) (chunk_z (chunk this))
              (LOAD K)])
  /\ (debugLineBuffer (fst (restore K W this)) = Some (newLineBuffer W)
      /\ debugVisuals_ (fst (restore K W this)) = true
      /\ In (Dispose TexCoords (debugLineBuffer this))
           (snd (restore K W this))).
Proof.
  intros Hon. cbv zeta.
  unfold discard, restore, setDebugVisuals.
  destruct (debugLineBuffer this) eqn:Ed; cbn; rewrite ?Hon, ?Ed; cbn;
    repeat split; auto.
Qed.

(** One call keeps the line buffer consistent with the flag and creates or
    disposes of exactly the line buffers it gains or loses. *)
Lemma step_line_buffers this c :
  debugConsistent this ->
  debugConsistent (step K W this c)
  /\ liveLineBuffers (callEvents K W this c)
     = heldLineBuffers (step K W this c) - heldLineBuffers this.
Proof.
  unfold debugConsistent, heldLineBuffers. intros Hc.
  destruct c; cbn [step callEvents];
    [ | rewrite liveLineBuffers_build; unfold build; cbn [fst]
      | unfold discard
      | unfold restore, setDebugVisuals
      | unfold setDebugVisuals; destruct value
      | unfold disposeInternal, setDebugVisuals
      |
      | unfold render; destruct (JS.truthy _)
      | unfold renderDebug ];
    destruct (debugVisuals_ this) eqn:Ev;
    destruct (debugLineBuffer this) eqn:Ed;
    cbn; rewrite ?Ev, ?Ed; cbn;
    (split;
     [ first [ exact Hc
             | intros _; reflexivity
             | intros H; exfalso; apply H; reflexivity
             | exfalso; assert (false = true) by (apply Hc; discriminate);
               discriminate ]
     | first [ lia
             | exfalso; assert (false = true) by (apply Hc; discriminate);
               discriminate ] ]).
Qed.

(** X9.  Line buffers neither leak nor get disposed of twice: along any
    sequence of calls on a renderer that holds a line buffer only while its
    debug flag is set (as a new renderer does), the line buffers created
    minus those disposed of equal the change in the number held, which is 0
    or 1 throughout. *)
Theorem X9_line_buffer_accounting this cs :
  debugConsistent this ->
  debugConsistent (fst (run K W this cs))
  /\ liveLineBuffers (snd (run K W this cs))
     = heldLineBuffers (fst (run K W this cs)) - heldLineBuffers this
  /\ 0 <= heldLineBuffers this + liveLineBuffers (snd (run K W this cs)) <= 1
  /\ (forall nextId bbox c by_,
        debugConsistent (create K nextId bbox c by_)
        /\ heldLineBuffers (create K nextId bbox c by_) = 0).
Proof.
  intros Hc.
  assert (Hrun : debugConsistent (fst (run K W this cs))
    /\ liveLineBuffers (snd (run K W this cs))
       = heldLineBuffers (fst (run K W this cs)) - heldLineBuffers this).
  { revert this Hc. induction cs as [|c cs IH]; intros this Hc.
    - cbn. split; [exact Hc|lia].
    - rewrite fst_run_cons, snd_run_cons, liveLineBuffers_app.
      destruct (step_line_buffers c Hc) as [Hc' Hl].
      destruct (IH _ Hc') as [Hc'' Hl']. split; [exact Hc''|lia]. }
  destruct Hrun as [H1 H2]. split; [exact H1|]. split; [exact H2|]. split.
  - rewrite H2. unfold heldLineBuffers.
    destruct (debugLineBuffer (fst (run K W this cs))); lia.
  - intros. split; [|reflexivity]. intros H. cbn in H. contradiction.
Qed.

(** One call other than [build] on a renderer without face buffer. *)
Lemma step_without_buffer this c :
  c <> CallBuild ->
  faceBuffer_ this = None -> faceBufferElementCount_ this = 0 ->
  estimatedSize this = 0 ->
  (faceBuffer_ (step K W this c) = None
   /\ faceBufferElementCount_ (step K W this c) = 0
   /\ estimatedSize (step K W this c) = 0)
  /\ Forall (fun e => ~ touchesFaceBuffer e) (callEvents K W this c).
Proof.
  intros Hnb Hb Hn He.
  destruct c; cbn [step callEvents]; try contradiction.
  - cbn. auto.
  - unfold discard. rewrite Hb.
    destruct (debugLineBuffer this); cbn; repeat split; auto;
      repeat constructor; intros H; exact H.
  - unfold restore, setDebugVisuals.
    destruct (debugVisuals_ this); cbn; repeat split; auto;
      repeat constructor; intros H; exact H.
  - unfold setDebugVisuals.
    destruct (Bool.eqb (debugVisuals_ this) value); [cbn; auto|].
    destruct value; cbn; repeat split; auto;
      repeat constructor; intros H; exact H.
  - unfold disposeInternal, setDebugVisuals.
    destruct (Bool.eqb (debugVisuals_ this) false); cbn;
      repeat split; auto; repeat constructor; intros H; exact H.
  - cbn. auto.
  - unfold render. rewrite Hn. cbn. auto.
  - unfold renderDebug. destruct (debugLineBuffer this); cbn;
      repeat split; auto; repeat constructor; intros H; exact H.
Qed.

(** X10.  After [discard], and until the next [build], no call draws,
    deletes a buffer or calls [finish], whatever is called in between; the
    renderer keeps no buffer, no elements and size 0, [hasData] only
    reports whether a build is queued, and the next [build] hands [finish]
    no buffer to reuse. *)
Theorem X10_no_buffer_use_after_discard this cs :
  Forall (fun c => c <> CallBuild) cs ->
  let s := fst (run K W (fst (discard TexCoords this)) cs) in
  (faceBuffer_ s = None /\ faceBufferElementCount_ s = 0
   /\ estimatedSize s = 0)
  /\ Forall (fun e => ~ touchesFaceBuffer e)
       (snd (run K W (fst (discard TexCoords this)) cs))
  /\ hasData s = queuedForBuild s
  /\ snd (build K W s) = buildEvents K W s ++ [Finish TexCoords None].
Proof.
  intros Hcs. cbv zeta.
  assert (Hgen : forall s0,
    faceBuffer_ s0 = None -> faceBufferElementCount_ s0 = 0 ->
    estimatedSize s0 = 0 ->
    (faceBuffer_ (fst (run K W s0 cs)) = None
     /\ faceBufferElementCount_ (fst (run K W s0 cs)) = 0
     /\ estimatedSize (fst (run K W s0 cs)) = 0)
    /\ Forall (fun e => ~ touchesFaceBuffer e) (snd (run K W s0 cs))).
  { induction Hcs as [|c cs Hc Hcs IH]; intros s0 Hb Hn He.
    - cbn. auto.
    - rewrite fst_run_cons, snd_run_cons.
      destruct (@step_without_buffer s0 c Hc Hb Hn He)
        as [(Hb' & Hn' & He') Hev].
      destruct (IH _ Hb' Hn' He') as [Hst Hevs].
      split; [exact Hst|]. apply Forall_app. split; assumption. }
  destruct (Hgen (fst (discard TexCoords this))) as [(Hb & Hn & He) Hev].
  { unfold discard. destruct (debugLineBuffer this); reflexivity. }
  { unfold discard. destruct (debugLineBuffer this); reflexivity. }
  { unfold discard. destruct (debugLineBuffer this); reflexivity. }
  split; [auto|]. split; [exact Hev|]. split.
  - unfold hasData. rewrite He. cbn. apply orb_false_r.
  - unfold build. cbn [snd]. rewrite Hb. reflexivity.
Qed.



(** X12.  A [build] followed by [render]: the renderer is no longer dirty,
    and [render] issues exactly one draw, of the buffer and element count
    that [finish] returned, with the constructor's world matrix; or no call
    at all when [finish] returned no elements.  [hasData] then holds when a
    build is queued or [finish] reported a positive byte size. *)
Theorem X12_render_after_build this frame viewport :
  let results := finish W (facesOf (buildEvents K W this)) (faceBuffer_ this) in
  let s := fst (fst (build K W this)) in
  dirty s = false
  /\ render TexCoords s frame viewport
     = (s, if elementCount results =? 0 then []
           else [Draw TexCoords viewport (worldMatrix this) (buffer results)
                   (elementCount results)])
  /\ hasData s = queuedForBuild this || (bytesUsed results >? 0).
Proof.
  cbv zeta. unfold build, render, hasData, JS.truthy.
  cbn [fst snd dirty faceBufferElementCount_ faceBuffer_ worldMatrix
       queuedForBuild estimatedSize].
  destruct (elementCount _ =? 0); cbn [negb]; auto.
Qed.

End LifecycleExtras.

Lemma X1_empty_segment_witness :
  let K := Example.consts in
  let W := Example.world Example.alone in
  let this := Example.renderer Filled.void in
  (forall bx by_ bz,
     0 <= bx < SIZE -> 0 <= bz < SIZE ->
     by0 this <= by_ <= by0 this + SIZE - 1 ->
     blockId (cellAt K this bx by_ bz) = 0)
  /\ buildEvents K W this = []
  /\ snd (build K W this) = [Finish Z None].
Proof.
  intros K W this.
  assert (H : forall bx by_ bz,
     0 <= bx < SIZE -> 0 <= bz < SIZE ->
     by0 this <= by_ <= by0 this + SIZE - 1 ->
     blockId (cellAt K this bx by_ bz) = 0).
  { intros bx by_ bz Hx Hz Hy. unfold cellAt.
    change (blockData (chunk this)) with (repeat 0 (Z.to_nat 8192)).
    change (by0 this) with 0 in Hy.
    change (STRIDE_Z K) with 16. change (STRIDE_Y K) with 256.
    rewrite read_repeat; [reflexivity|]. unfold SIZE in *. lia. }
  split; [exact H|].
  pose proof (@X1_empty_segment Z K W this H) as (H1 & H2 & _).
  split; [exact H1|exact H2].
Defined.

Lemma X2_face_rule_16_bits_witness :
  let K := Example.consts in
  let W := Example.world Example.alone in
  let this := Example.renderer Example.single in
  (0 <= 5 < SIZE /\ by0 this <= 5 <= by0 this + SIZE - 1 /\ 0 <= 0 < 6
   /\ blockId (cellAt K this 5 5 5) <> 0)
  /\ (emitsFace (buildEvents K W this) this 5 5 5 0
      <-> faceRule K W 1 (0 mod 2 ^ 16)).
Proof.
  intros K W this.
  assert (H : 0 <= 5 < SIZE /\ by0 this <= 5 <= by0 this + SIZE - 1
              /\ 0 <= 0 < 6 /\ blockId (cellAt K this 5 5 5) <> 0).
  { vm_compute. repeat split; discriminate. }
  split; [exact H|]. destruct H as (Hx & Hy & Hn & Hs).
  exact (proj1 (@X2_face_rule_16_bits Z K W this 5 5 5 0 Hx Hx Hy Hn Hs)).
Defined.

Lemma X8_restore_debug_visuals_witness :
  let K := Example.consts in
  let W := Example.world Example.alone in
  let this := fst (setDebugVisuals W (Example.renderer Example.single) true) in
  debugVisuals_ this = true
  /\ setDebugVisuals W (fst (discard Z this)) true
     = (fst (discard Z this), [])
  /\ debugLineBuffer (fst (restore K W (fst (discard Z this))))
     = Some (newLineBuffer W).
Proof.
  intros K W this.
  assert (H : debugVisuals_ this = true) by reflexivity.
  split; [exact H|].
  pose proof (@X8_restore_debug_visuals Z K W this H) as (_ & H1 & (H2 & _) & _).
  split; [exact H1|exact H2].
Defined.

Lemma X9_line_buffer_accounting_witness :
  let K := Example.consts in
  let W := Example.world Example.alone in
  let this := Example.renderer Example.single in
  let cs := [CallSetDebugVisuals true; CallBuild; CallDiscard; CallRestore;
             CallRenderDebug 0 0; CallDisposeInternal] in
  debugConsistent this
  /\ liveLineBuffers (snd (run K W this cs))
     = heldLineBuffers (fst (run K W this cs)) - heldLineBuffers this.
Proof.
  intros K W this cs.
  assert (H : debugConsistent this).
  { unfold debugConsistent. cbn. intros Hn. contradiction. }
  split; [exact H|].
  exact (proj1 (proj2 (@X9_line_buffer_accounting Z K W this cs H))).
Defined.

Lemma X10_no_buffer_use_after_discard_witness :
  let K := Example.consts in
  let W := Example.world Example.alone in
  let this := fst (fst (build K W (Example.renderer Example.single))) in
  let cs := [CallRender 0 0; CallSetDebugVisuals true; CallDiscard;
             CallRestore; CallInvalidate; CallHasData] in
  Forall (fun c => c <> CallBuild) cs
  /\ Forall (fun e => ~ touchesFaceBuffer e)
       (snd (run K W (fst (discard Z this)) cs)).
Proof.
  intros K W this cs.
  assert (H : Forall (fun c => c <> CallBuild) cs)
    by (repeat constructor; discriminate).
  split; [exact H|].
  exact (proj1 (proj2 (@X10_no_buffer_use_after_discard Z K W this cs H))).
Defined.
